(** * Verification of fetch_results.py (club results fetcher)

    A shallow embedding of the extraction-and-accumulation pipeline of
    [fetch_results.py]: [clean_text], [parse_results],
    [load_existing_results], [save_results], [fetch_single_week] and
    [backfill_weeks].

    Modelling conventions.
    - A Python [str] is a list of Unicode code points ([list N]); the
      literal ["abc"] of the source is written [u "abc"].
    - The library functions the program calls ([re], [html.unescape],
      [str.split], [csv.DictReader], [csv.DictWriter], [datetime]) are
      modelled by the functions below, each specialised to the pattern or
      the arguments the program passes.  The parts of the Unicode database
      they consult (lower-casing, decimal digits, the table of named
      character references) are the fields of the class [UnicodeData].
    - The dataset file is modelled at two levels.  At the level of CSV
      records an absent file is [None] and a file is the list of rows
      [csv.reader] yields for it (an empty line is the row [[]]);
      [save_results] appends rows to it.  At the level of the text
      ([save_results_text]) the file is its characters, written by the
      model of [csv.writer] and read by the model of [csv.reader].  The two
      agree on a file that is absent or whose text ends with a line
      terminator ([save_results_text_rows]), as every file the program
      wrote does; on a file whose last line is not terminated the rows
      appended are glued to it, which only the text level shows.
    - The network is an oracle from the number of the request and the
      requested date to a page or a transport error. *)

From Stdlib Require Import NArith ZArith String Ascii Decimal DecimalNat.
From stdpp Require Import base option list gmap sorting.

Local Open Scope N_scope.

Abbreviation str := (list N).

(** The Python literal ["..."], for ASCII (and Latin-1) text. *)
Definition u (s : string) : str :=
  (fun a => N_of_ascii a) <$> list_ascii_of_string s.

(** ** Characters *)

(** [str.isspace] for one code point: the white space [str.split] and
    [str.strip] act on. *)
Definition isspace (c : N) : bool :=
  ((9 <=? c) && (c <=? 13)) || ((28 <=? c) && (c <=? 32))
  || (c =? 133) || (c =? 160) || (c =? 5760)
  || ((8192 <=? c) && (c <=? 8202))
  || (c =? 8232) || (c =? 8233) || (c =? 8239) || (c =? 8287) || (c =? 12288).

(** Lower-casing of an ASCII letter. *)
Definition ascii_lower (c : N) : N :=
  if (65 <=? c) && (c <=? 90) then c + 32 else c.

(** The case folding the [re] module applies to a subject character under
    [re.IGNORECASE], on the code points whose image is an ASCII letter
    (the letters [A]-[Z], KELVIN SIGN and LATIN CAPITAL LETTER I WITH DOT
    ABOVE); no other code point can match a letter of this program's
    patterns. *)
Definition sre_lower (c : N) : N :=
  if (65 <=? c) && (c <=? 90) then c + 32
  else if c =? 8490 then 107
  else if c =? 304 then 105
  else c.

Definition is_ascii (c : N) : bool := c <? 128.

(** The Unicode data the library functions consult. *)
Class UnicodeData := {
  (** [str.lower] *)
  str_lower : str -> str;
  str_lower_ascii :
    forall s, forallb is_ascii s = true -> str_lower s = ascii_lower <$> s;
  (** the value of a code point of category Nd, which is what [\d] matches *)
  decimal_value : N -> option N;
  decimal_value_ascii :
    forall c, is_ascii c = true ->
      decimal_value c = if (48 <=? c) && (c <=? 57) then Some (c - 48) else None;
  (** [html.entities.html5], keyed by the name with its semicolon if any *)
  html5 : str -> option str;
  html5_nbsp : html5 (u "nbsp;") = Some [160]
}.

(** ** Regular expressions, as the program uses them *)

(** A pattern made of single-character tests. *)
Abbreviation pattern := (list (N -> bool)).

Definition lit (s : string) : pattern := (fun p c => c =? p) <$> u s.
Definition lit_ci (s : string) : pattern := (fun p c => sre_lower c =? p) <$> u s.

(** Matches the pattern at the start of [s] and returns what follows. *)
Fixpoint match_prefix (pat : pattern) (s : str) : option str :=
  match pat with
  | [] => Some s
  | p :: pat' =>
      match s with
      | c :: r => if p c then match_prefix pat' r else None
      | [] => None
      end
  end.

(** The longest prefix of characters satisfying [p], and the rest: a greedy
    [[...]*]. *)
Fixpoint span (p : N -> bool) (s : str) : str * str :=
  match s with
  | c :: r => if p c then let '(a, b) := span p r in (c :: a, b) else ([], s)
  | [] => ([], [])
  end.

(** One left-to-right pass over [s] of a pattern that matches non-empty
    text, as [re.finditer] does it.  [m s'] tells whether the pattern
    matches at the start of [s'], with what result and what text is left
    after the match.  The pass returns the non-overlapping matches, leftmost
    first, each with the text between the previous match and itself, and the
    text after the last match.  [skip] counts the characters of the current
    match still to step over. *)
Fixpoint finditer {A} (m : str -> option (A * str)) (skip : nat) (s : str)
  : list (str * A) * str :=
  match s with
  | [] => ([], [])
  | c :: r =>
      match skip with
      | S k => finditer m k r
      | O =>
          match m s with
          | Some (a, rest) =>
              let '(ms, tl) := finditer m (length r - length rest) r in
              (([], a) :: ms, tl)
          | None =>
              match finditer m O r with
              | ([], tl) => ([], c :: tl)
              | ((pre, a) :: ms, tl) => ((c :: pre, a) :: ms, tl)
              end
          end
      end
  end.

(** [re.sub] with a replacement computed from the match. *)
Definition re_sub {A} (m : str -> option (A * str)) (repl : A -> str) (s : str) : str :=
  let '(ms, tl) := finditer m O s in
  concat ((fun '(pre, a) => pre ++ repl a) <$> ms) ++ tl.

(** [re.findall] for a pattern with one group. *)
Definition re_findall {A} (m : str -> option (A * str)) (s : str) : list A :=
  snd <$> fst (finditer m O s).

(** [re.split] for a pattern without groups. *)
Definition re_split {A} (m : str -> option (A * str)) (s : str) : list str :=
  let '(ms, tl) := finditer m O s in (fst <$> ms) ++ [tl].

(** [re.search]: the leftmost match. *)
Fixpoint re_search {A} (m : str -> option (A * str)) (s : str) : option A :=
  match m s with
  | Some (a, _) => Some a
  | None => match s with [] => None | _ :: r => re_search m r end
  end.

(** [open[^>]*>] at the start of [s]: what follows the [>]. *)
Definition open_tag (name : pattern) (s : str) : option str :=
  match match_prefix name s with
  | Some r =>
      match snd (span (fun c => negb (c =? 62)) r) with
      | 62 :: body => Some body
      | _ => None
      end
  | None => None
  end.

(** [(.*?)close] at the start of [s], with [re.DOTALL]: the shortest text
    followed by [close], and what follows [close]. *)
Fixpoint lazy_until (close : pattern) (s : str) : option (str * str) :=
  match match_prefix close s with
  | Some rest => Some ([], rest)
  | None =>
      match s with
      | [] => None
      | c :: r =>
          match lazy_until close r with
          | Some (g, rest) => Some (c :: g, rest)
          | None => None
          end
      end
  end.

(** [open[^>]*>(.*?)close] at the start of [s]: group 1 and the rest. *)
Definition element_at (open close : pattern) (s : str) : option (str * str) :=
  match open_tag open s with
  | Some body => lazy_until close body
  | None => None
  end.

(** ** clean_text *)

(** [<[^>]+>] at the start of [s]. *)
Definition tag_at (s : str) : option (unit * str) :=
  match s with
  | 60 :: r =>
      match span (fun c => negb (c =? 62)) r with
      | (_ :: _, 62 :: rest) => Some (tt, rest)
      | _ => None
      end
  | _ => None
  end.

(** [re.sub(r'<[^>]+>', '', text)] *)
Definition strip_tags (text : str) : str := re_sub tag_at (fun _ => []) text.

(** *** html.unescape

    The pattern is
    [&(#[0-9]+;?|#[xX][0-9a-fA-F]+;?|[^\t\n\f <&#;]{1,32};?)].
    [unescape] below is the text [html.unescape] returns; [int] refuses a
    decimal numeral of more digits than the interpreter's limit, and
    [unescape_raises] tells when it does. *)

Inductive charref :=
  | Numeric (num : N)      (* [&#65;] or [&#x41;], already read as a number *)
  | Named (name : str).    (* [&name] with its semicolon if there is one *)

Definition is_dec (c : N) : bool := (48 <=? c) && (c <=? 57).

Definition hex_value (c : N) : option N :=
  if is_dec c then Some (c - 48)
  else if (97 <=? c) && (c <=? 102) then Some (c - 87)
  else if (65 <=? c) && (c <=? 70) then Some (c - 55)
  else None.

Definition is_name_char (c : N) : bool :=
  negb (bool_decide (c ∈ [9; 10; 12; 32; 60; 38; 35; 59])).

(** [int(digits, base)] *)
Definition int_of (base : N) (value : N -> option N) (digits : str) : N :=
  fold_left (fun acc c => base * acc + default 0 (value c)) digits 0.

(** At most [n] leading characters satisfying [p]: a greedy [[...]{0,n}]. *)
Fixpoint span_upto (n : nat) (p : N -> bool) (s : str) : str * str :=
  match n, s with
  | S n', c :: r =>
      if p c then let '(a, b) := span_upto n' p r in (c :: a, b) else ([], s)
  | _, _ => ([], s)
  end.

(** An optional semicolon at the start of [s]. *)
Definition opt_semicolon (s : str) : str * str :=
  match s with
  | 59 :: r => ([59], r)
  | _ => ([], s)
  end.

Definition charref_at (s : str) : option (charref * str) :=
  match s with
  | 38 :: 35 :: r =>
      match span is_dec r with
      | (d :: ds, r') =>
          Some (Numeric (int_of 10 hex_value (d :: ds)), snd (opt_semicolon r'))
      | ([], _) =>
          match r with
          | x :: r1 =>
              if (x =? 120) || (x =? 88) then
                match span (fun c => bool_decide (is_Some (hex_value c))) r1 with
                | (d :: ds, r') =>
                    Some (Numeric (int_of 16 hex_value (d :: ds)), snd (opt_semicolon r'))
                | ([], _) => None
                end
              else None
          | [] => None
          end
      end
  | 38 :: r =>
      match span_upto 32 is_name_char r with
      | (c :: name, r') =>
          let '(semi, rest) := opt_semicolon r' in
          Some (Named (c :: name ++ semi), rest)
      | ([], _) => None
      end
  | _ => None
  end.

(** [html._invalid_charrefs] *)
Definition invalid_charrefs : list (N * N) :=
  [ (0x00, 0xfffd); (0x0d, 0x0d); (0x80, 0x20ac); (0x81, 0x81);
    (0x82, 0x201a); (0x83, 0x0192); (0x84, 0x201e); (0x85, 0x2026);
    (0x86, 0x2020); (0x87, 0x2021); (0x88, 0x02c6); (0x89, 0x2030);
    (0x8a, 0x0160); (0x8b, 0x2039); (0x8c, 0x0152); (0x8d, 0x8d);
    (0x8e, 0x017d); (0x8f, 0x8f); (0x90, 0x90); (0x91, 0x2018);
    (0x92, 0x2019); (0x93, 0x201c); (0x94, 0x201d); (0x95, 0x2022);
    (0x96, 0x2013); (0x97, 0x2014); (0x98, 0x02dc); (0x99, 0x2122);
    (0x9a, 0x0161); (0x9b, 0x203a); (0x9c, 0x0153); (0x9d, 0x9d);
    (0x9e, 0x017e); (0x9f, 0x0178) ].

(** [html._invalid_codepoints] *)
Definition invalid_codepoint (n : N) : bool :=
  ((0x1 <=? n) && (n <=? 0x8)) || ((0xe <=? n) && (n <=? 0x1f))
  || ((0x7f <=? n) && (n <=? 0x9f)) || ((0xfdd0 <=? n) && (n <=? 0xfdef))
  || (n =? 0xb)
  || ((n <=? 0x10ffff) && (0xfffe <=? n mod 0x10000)).

Fixpoint assoc (k : N) (l : list (N * N)) : option N :=
  match l with
  | [] => None
  | (k', v) :: l' => if k =? k' then Some v else assoc k l'
  end.

Definition replace_numeric (num : N) : str :=
  match assoc num invalid_charrefs with
  | Some c => [c]
  | None =>
      if ((0xD800 <=? num) && (num <=? 0xDFFF)) || (0x10FFFF <? num) then [0xFFFD]
      else if invalid_codepoint num then []
      else [num]
  end.

(** [sys.get_int_max_str_digits()], as the interpreter starts (3.11, and
    the security releases of the versions before it). *)
Definition int_max_str_digits : nat := 4300.

(** The digits [int] is given for the reference at the start of [s] when
    that is a decimal reference [&#[0-9]+;?], and no digits for the other
    references, which are not subject to the limit. *)
Definition decimal_digits_at (s : str) : option (str * str) :=
  match charref_at s with
  | Some (_, rest) =>
      Some (match s with
            | 38 :: 35 :: r => fst (span is_dec r)
            | _ => []
            end, rest)
  | None => None
  end.

(** [html.unescape(s)] raises [ValueError]: one of the decimal references
    of [s] has more digits than [int] converts. *)
Definition unescape_raises (s : str) : bool :=
  existsb (fun digits => (int_max_str_digits <? length digits)%nat)
    (re_findall decimal_digits_at s).

Section Clean.
Context {UD : UnicodeData}.

(** The longest proper prefix of the name, of length [x] down to 2, that is
    a named reference. *)
Fixpoint longest_name (x : nat) (s : str) : option str :=
  match x with
  | S x' =>
      if (2 <=? x)%nat then
        match html5 (take x s) with
        | Some v => Some (v ++ drop x s)
        | None => longest_name x' s
        end
      else None
  | O => None
  end.

(** [html._replace_charref] *)
Definition replace_charref (r : charref) : str :=
  match r with
  | Numeric num => replace_numeric num
  | Named s =>
      match html5 s with
      | Some v => v
      | None =>
          match longest_name (length s - 1) s with
          | Some v => v
          | None => 38 :: s
          end
      end
  end.

(** [html.unescape] *)
Definition unescape (s : str) : str :=
  if negb (existsb (N.eqb 38) s) then s
  else re_sub charref_at replace_charref s.

(** *** str.split, str.join, str.strip *)

Definition starts_word (s : str) : bool :=
  match s with
  | c :: _ => negb (isspace c)
  | [] => false
  end.

(** [s.split()]: the maximal runs of characters that are not white space. *)
Fixpoint split (s : str) : list str :=
  match s with
  | [] => []
  | c :: r =>
      if isspace c then split r
      else if starts_word r then
        match split r with
        | w :: ws => (c :: w) :: ws
        | [] => [[c]]
        end
      else [c] :: split r
  end.

(** [sep.join(ws)] *)
Fixpoint join (sep : str) (ws : list str) : str :=
  match ws with
  | [] => []
  | [w] => w
  | w :: ws' => w ++ sep ++ join sep ws'
  end.

Fixpoint lstrip (s : str) : str :=
  match s with
  | c :: r => if isspace c then lstrip r else s
  | [] => []
  end.

Fixpoint rstrip (s : str) : str :=
  match s with
  | c :: r =>
      match rstrip r with
      | [] => if isspace c then [] else [c]
      | r' => c :: r'
      end
  | [] => []
  end.

(** [s.strip()] *)
Definition strip (s : str) : str := rstrip (lstrip s).

(** [clean_text(text)] *)
Definition clean_text (text : str) : str :=
  let text := strip_tags text in
  let text := unescape text in
  let text := join (u " ") (split text) in
  strip text.

End Clean.

(** ** Numerals and dates *)

Fixpoint uint_str (d : Decimal.uint) : str :=
  match d with
  | Nil => []
  | D0 d => 48 :: uint_str d
  | D1 d => 49 :: uint_str d
  | D2 d => 50 :: uint_str d
  | D3 d => 51 :: uint_str d
  | D4 d => 52 :: uint_str d
  | D5 d => 53 :: uint_str d
  | D6 d => 54 :: uint_str d
  | D7 d => 55 :: uint_str d
  | D8 d => 56 :: uint_str d
  | D9 d => 57 :: uint_str d
  end.

(** [str(n)] for a natural number *)
Definition decimal (n : nat) : str := uint_str (Nat.to_uint n).

(** [n] printed on at least [w] digits, as [%Y], [%m] and [%d] print it. *)
Definition zero_padded (w : nat) (n : Z) : str :=
  let s := decimal (Z.to_nat n) in replicate (w - length s) 48 ++ s.

Record date := { year : Z; month : Z; day : Z }.

(** [d.strftime('%Y-%m-%d')], the year on four digits (what a C library
    prints for a year below 1000 varies). *)
Definition strftime (d : date) : str :=
  zero_padded 4 (year d) ++ u "-" ++ zero_padded 2 (month d) ++ u "-"
  ++ zero_padded 2 (day d).

(** ** parse_results *)

Abbreviation result := (gmap str str).

Fixpoint is_prefix (a b : str) : bool :=
  match a, b with
  | [], _ => true
  | x :: a', y :: b' => (x =? y) && is_prefix a' b'
  | _ :: _, [] => false
  end.

(** [needle in hay] *)
Fixpoint contains (needle hay : str) : bool :=
  is_prefix needle hay
  || match hay with
     | [] => false
     | _ :: r => contains needle r
     end.

Section Parser.
Context {UD : UnicodeData}.

(** The club-name filter, read from the environment at start-up. *)
Variable CLUB_NAME : str.

Definition is_digit (c : N) : bool := bool_decide (is_Some (decimal_value c)).

(** [\d{4}-\d{2}-\d{2}] *)
Definition ymd_pattern : pattern :=
  [is_digit; is_digit; is_digit; is_digit] ++ lit "-"
  ++ [is_digit; is_digit] ++ lit "-" ++ [is_digit; is_digit].

(** [who participated at a parkrun on (\d{4}-\d{2}-\d{2})] at the start of
    [s]. *)
Definition date_at (s : str) : option (str * str) :=
  match match_prefix (lit "who participated at a parkrun on ") s with
  | Some r =>
      match match_prefix ymd_pattern r with
      | Some rest => Some (take 10 r, rest)
      | None => None
      end
  | None => None
  end.

Definition search_date (html : str) : option str := re_search date_at html.

(** [<h2>], ignoring case *)
Definition h2_at (s : str) : option (unit * str) :=
  match match_prefix (lit_ci "<h2>") s with
  | Some rest => Some (tt, rest)
  | None => None
  end.

(** [re.match(r'^([^<]+)</h2>', section, re.IGNORECASE)]: group 1 *)
Definition h2_match (section : str) : option str :=
  match span (fun c => negb (c =? 60)) section with
  | (c :: g, r) =>
      match match_prefix (lit_ci "</h2>") r with
      | Some _ => Some (c :: g)
      | None => None
      end
  | ([], _) => None
  end.

(** [ parkrun$], ignoring case: [$] matches at the end of the text and
    before a line feed that ends the text. *)
Definition parkrun_suffix_at (s : str) : option (unit * str) :=
  match match_prefix (lit_ci " parkrun") s with
  | Some [] => Some (tt, [])
  | Some [10] => Some (tt, [10])
  | _ => None
  end.

(** The event name of a heading:
    [re.sub(r' parkrun$', '', g.strip(), flags=re.IGNORECASE)] *)
Definition event_name_of (g : str) : str :=
  re_sub parkrun_suffix_at (fun _ => []) (strip g).

(** [re.search(r'<table[^>]*>(.*?)</table>', section, I | S)]: group 1 *)
Definition search_table (section : str) : option str :=
  re_search (element_at (lit_ci "<table") (lit_ci "</table>")) section.

(** [re.findall(r'<tr[^>]*>(.*?)</tr>', table_html, I | S)] *)
Definition findall_rows (table_html : str) : list str :=
  re_findall (element_at (lit_ci "<tr") (lit_ci "</tr>")) table_html.

Definition th_or_td (c : N) : bool := (sre_lower c =? 104) || (sre_lower c =? 100).

(** [re.findall(r'<t[hd][^>]*>(.*?)</t[hd]>', row, I | S)] *)
Definition findall_cells (row : str) : list str :=
  re_findall
    (element_at (lit_ci "<t" ++ [th_or_td]) (lit_ci "</t" ++ [th_or_td] ++ lit ">"))
    row.

(** [headers[j] if j < len(headers) else f'Column{j+1}'] *)
Definition column (headers : list str) (j : nat) : str :=
  match headers !! j with
  | Some h => h
  | None => u "Column" ++ decimal (S j)
  end.

(** The loop [for j, cell in enumerate(cells): row_data[header] = cell],
    from index [j] on. *)
Fixpoint fill (headers : list str) (j : nat) (cells : list str) (row_data : result)
  : result :=
  match cells with
  | [] => row_data
  | cell :: cells' => fill headers (S j) cells' (<[column headers j := cell]> row_data)
  end.

Definition make_row (headers cells : list str) : result := fill headers 0 cells ∅.

(** [row_data.get('Club', '')] *)
Definition club_of (row_data : result) : str := default [] (row_data !! u "Club").

(** [CLUB_NAME.lower() in club.lower()] *)
Definition is_match (club : str) : bool :=
  contains (str_lower CLUB_NAME) (str_lower club).

(** The record appended to [results] for an included row. *)
Definition annotate (event_name event_date : str) (row_data : result) : result :=
  <[u "Date" := event_date]> (<[u "Event" := event_name]> row_data).

(** The loop [for i, row in enumerate(rows)], from index [i] on with the
    current [headers]; the records it appends to [results]. *)
Fixpoint rows_loop (event_name event_date : str) (i : nat) (headers : list str)
    (rows : list str) : list result :=
  match rows with
  | [] => []
  | row :: rows' =>
      let cells := clean_text <$> findall_cells row in
      match cells with
      | [] => rows_loop event_name event_date (S i) headers rows'
      | _ :: _ =>
          if (i =? 0)%nat then rows_loop event_name event_date (S i) cells rows'
          else
            let row_data := make_row headers cells in
            if is_match (club_of row_data) then
              annotate event_name event_date row_data
                :: rows_loop event_name event_date (S i) headers rows'
            else rows_loop event_name event_date (S i) headers rows'
      end
  end.

(** The body of the loop [for section in sections[1:]]. *)
Definition section_results (event_date : str) (section : str) : list result :=
  match h2_match section with
  | None => []
  | Some g =>
      match search_table section with
      | None => []
      | Some table_html =>
          rows_loop (event_name_of g) event_date 0 [] (findall_rows table_html)
      end
  end.

(** The event date of a page; [now] is what [datetime.now()] returns. *)
Definition event_date_of (now : date) (html : str) : str :=
  match search_date html with
  | Some d => d
  | None => strftime now
  end.

(** [parse_results(html)] *)
Definition parse_results (now : date) (html : str) : list result :=
  let event_date := event_date_of now html in
  let sections := re_split h2_at html in
  mjoin (section_results event_date <$> tail sections).

End Parser.

(** ** The dataset file: load_existing_results and save_results *)

(** The rows of [club_results.csv], as [csv.reader] yields them. *)
Abbreviation csv_file := (list (list str)).

(** A row as [csv.DictReader] yields it: a cell, or Python's [None]
    ([restval]) for a field name the row is too short to fill.  The entry
    that holds the surplus cells of a row longer than the header has the
    key [None] and is left out: the program looks up string keys only. *)
Abbreviation csv_dict := (gmap str (option str)).

(** [dict(zip(fieldnames, row))], later pairs replacing earlier ones *)
Fixpoint dict_zip (fieldnames row : list str) (d : csv_dict) : csv_dict :=
  match fieldnames, row with
  | k :: ks, v :: vs => dict_zip ks vs (<[k := Some v]> d)
  | _, _ => d
  end.

(** [DictReader.__next__] on one row that is not empty *)
Definition dict_of_row (fieldnames row : list str) : csv_dict :=
  fold_left (fun d k => <[k := None]> d) (drop (length row) fieldnames)
    (dict_zip fieldnames row ∅).

(** The rows [csv.DictReader(f)] yields: the first row of the file gives the
    field names, empty rows after it are skipped. *)
Definition dict_reader (f : csv_file) : list csv_dict :=
  match f with
  | [] => []
  | fieldnames :: rows =>
      dict_of_row fieldnames <$> filter (fun row => row ≠ []) rows
  end.

(** An identity triple; a component read from the file can be [None]. *)
Abbreviation key := (option str * option str * option str)%type.

(** [(row.get('Date', ''), row.get('Event', ''), row.get('parkrunner', ''))] *)
Definition row_key (row : csv_dict) : key :=
  (default (Some []) (row !! u "Date"),
   default (Some []) (row !! u "Event"),
   default (Some []) (row !! u "parkrunner")).

(** The keys of the rows of a file, one per row read, in order. *)
Definition file_keys (file : option csv_file) : list key :=
  match file with
  | None => []
  | Some f => row_key <$> dict_reader f
  end.

(** [load_existing_results()], [file] being the state of the dataset *)
Definition load_existing_results (file : option csv_file) : gset key :=
  list_to_set (file_keys file).

(** The column order [save_results] starts from. *)
Definition fieldnames : list str :=
  [u "Date"; u "Event"; u "Position"; u "Gender Position"; u "parkrunner";
   u "Club"; u "Time"].

(** The order of Python's [str] comparison. *)
Fixpoint str_leb (a b : str) : bool :=
  match a, b with
  | [], _ => true
  | _ :: _, [] => false
  | x :: a', y :: b' => (x <? y) || ((x =? y) && str_leb a' b')
  end.

Definition str_le (a b : str) : Prop := str_leb a b = true.

#[local] Instance str_le_dec a b : Decision (str_le a b).
Proof. unfold str_le. apply _. Defined.

(** The union of the key sets of the results *)
Definition all_keys (results : list result) : gset str :=
  foldr (fun r acc => dom r ∪ acc) ∅ results.

(** [sorted(all_keys - set(fieldnames))] *)
Definition extra_keys (results : list result) : list str :=
  merge_sort str_le (elements (all_keys results ∖ list_to_set fieldnames)).

(** [(r.get('Date', ''), r.get('Event', ''), r.get('parkrunner', ''))] *)
Definition result_key (r : result) : key :=
  (Some (default [] (r !! u "Date")),
   Some (default [] (r !! u "Event")),
   Some (default [] (r !! u "parkrunner"))).

(** The row [csv.DictWriter] writes for a dictionary whose keys are all
    among the field names: [restval] is the empty string. *)
Definition dict_to_list (fields : list str) (r : result) : list str :=
  (fun k => default [] (r !! k)) <$> fields.

(** What [save_results] prints. *)
Inductive message :=
  | NoResultsToSave
  | NoNewResults
  | Saved (n : nat).

(** A Python value a function of this program can return to its caller. *)
Inductive pyvalue :=
  | PyNone
  | PyInt (n : Z).

Record outcome := {
  file_after : option csv_file;
  printed : message;
  returned : pyvalue
}.

(** The results that pass the duplicate filter of [save_results]. *)
Definition new_results (results : list result) (existing : gset key) : list result :=
  filter (fun r => result_key r ∉ existing) results.

(** [save_results(results, append)], [file] being the rows of the dataset
    when it is called.  Appending rows is what the code does to a file whose
    text ends with a line terminator; [save_results_text] below appends the
    text. *)
Definition save_results (results : list result) (append : bool)
    (file : option csv_file) : outcome :=
  match results with
  | [] => {| file_after := file; printed := NoResultsToSave; returned := PyNone |}
  | _ :: _ =>
      let fields := fieldnames ++ extra_keys results in
      let existing := if append then load_existing_results file else ∅ in
      match new_results results existing with
      | [] => {| file_after := file; printed := NoNewResults; returned := PyNone |}
      | new =>
          let rows := dict_to_list fields <$> new in
          let written :=
            match file with
            | Some f => if append then f ++ rows else fields :: rows
            | None => fields :: rows
            end in
          {| file_after := Some written;
             printed := Saved (length new);
             returned := PyNone |}
      end
  end.

(** ** The dataset file as text: csv.writer, csv.reader and the append

    The functions above see the file as the rows [csv.reader] yields.  The
    program appends text, not rows: the functions below model the text of
    the file, the writer and the reader of the [csv] module in the [excel]
    dialect the program uses (delimiter [,], the double quote as quote
    character, written twice inside a quoted field, line terminator [\r\n], QUOTE_MINIMAL, no
    escape character, not strict; interpreter 3.11 or later, where the
    reader accepts every character), and [save_results] on the text.  The
    file is opened with [newline=''], so the text is written and read as
    it is; its encoding is not modelled. *)

(** A character that makes the writer quote the field: the delimiter, the
    quote character and the characters of the line terminator. *)
Definition must_quote (c : N) : bool :=
  (c =? 44) || (c =? 34) || (c =? 13) || (c =? 10).

(** The characters of a quoted field, each quote written twice. *)
Definition double_quotes (field : str) : str :=
  flat_map (fun c => if c =? 34 then [34; 34] else [c]) field.

(** [join_append]: a field as the writer writes it. *)
Definition write_field (field : str) : str :=
  if existsb must_quote field then [34] ++ double_quotes field ++ [34]
  else field.

(** [writer.writerow(row)]; a row of one empty field is written quoted. *)
Definition writerow (row : list str) : str :=
  match row with
  | [[]] => [34; 34; 13; 10]
  | _ => join [44] (write_field <$> row) ++ [13; 10]
  end.

(** [writer.writerows(rows)] *)
Definition writerows (rows : list (list str)) : str := mjoin (writerow <$> rows).

(** The states of the reader ([ParserState] of [_csv.c]); the two states
    for an escape character are not reached without one. *)
Inductive rstate :=
  | START_RECORD
  | START_FIELD
  | IN_FIELD
  | IN_QUOTED_FIELD
  | QUOTE_IN_QUOTED_FIELD
  | EAT_CRNL.

(** Where the text read so far stands in its line.  The file object ends a
    line after [\n], and after a [\r] that no [\n] follows; the reader is
    given the characters of each line and then the end of the line. *)
Inductive line_pos :=
  | LineStart
  | AfterCR
  | InLine.

(** The reader: its state, the fields of the record it is reading, the
    field it is reading, the position in the line, and the records it has
    yielded. *)
Record reader := Reader {
  r_state : rstate;
  r_fields : list str;
  r_field : str;
  r_line : line_pos;
  r_records : list (list str)
}.

(** [csv.field_size_limit()] *)
Definition field_limit : N := 131072.

(** [parse_add_char], followed by the change to state [s]; [None] is the
    exception [_csv.Error] *)
Definition parse_add_char (m : reader) (c : N) (s : rstate) : option reader :=
  if field_limit <=? N.of_nat (length (r_field m)) then None
  else Some (Reader s (r_fields m) (r_field m ++ [c]) (r_line m) (r_records m)).

(** [parse_save_field], followed by the change to state [s] *)
Definition parse_save_field (m : reader) (s : rstate) : reader :=
  Reader s (r_fields m ++ [r_field m]) [] (r_line m) (r_records m).

Definition set_state (m : reader) (s : rstate) : reader :=
  Reader s (r_fields m) (r_field m) (r_line m) (r_records m).

Definition set_line (m : reader) (l : line_pos) : reader :=
  Reader (r_state m) (r_fields m) (r_field m) l (r_records m).

Definition is_newline (c : N) : bool := (c =? 10) || (c =? 13).

(** The case [START_FIELD] of [parse_process_char], which the case
    [START_RECORD] falls through to; [None] for [c] is the end of the
    line. *)
Definition start_field (m : reader) (c : option N) : option reader :=
  match c with
  | None => Some (parse_save_field m START_RECORD)
  | Some ch =>
      if is_newline ch then Some (parse_save_field m EAT_CRNL)
      else if ch =? 34 then Some (set_state m IN_QUOTED_FIELD)
      else if ch =? 44 then Some (parse_save_field m START_FIELD)
      else parse_add_char m ch IN_FIELD
  end.

(** [parse_process_char] *)
Definition parse_process_char (m : reader) (c : option N) : option reader :=
  match r_state m with
  | START_RECORD =>
      match c with
      | None => Some m
      | Some ch =>
          if is_newline ch then Some (set_state m EAT_CRNL) else start_field m c
      end
  | START_FIELD => start_field m c
  | IN_FIELD =>
      match c with
      | None => Some (parse_save_field m START_RECORD)
      | Some ch =>
          if is_newline ch then Some (parse_save_field m EAT_CRNL)
          else if ch =? 44 then Some (parse_save_field m START_FIELD)
          else parse_add_char m ch IN_FIELD
      end
  | IN_QUOTED_FIELD =>
      match c with
      | None => Some m
      | Some ch =>
          if ch =? 34 then Some (set_state m QUOTE_IN_QUOTED_FIELD)
          else parse_add_char m ch IN_QUOTED_FIELD
      end
  | QUOTE_IN_QUOTED_FIELD =>
      match c with
      | None => Some (parse_save_field m START_RECORD)
      | Some ch =>
          if ch =? 34 then parse_add_char m ch IN_QUOTED_FIELD
          else if ch =? 44 then Some (parse_save_field m START_FIELD)
          else if is_newline ch then Some (parse_save_field m EAT_CRNL)
          else parse_add_char m ch IN_FIELD
      end
  | EAT_CRNL =>
      match c with
      | None => Some (set_state m START_RECORD)
      | Some ch => if is_newline ch then Some m else None
      end
  end.

(** The end of a line in [Reader_iternext]: when the state is
    [START_RECORD] again the fields are yielded as a record and the next
    call starts afresh; otherwise the record goes on with the next line. *)
Definition end_of_line (m : reader) : option reader :=
  m' ← parse_process_char m None;
  Some (match r_state m' with
        | START_RECORD =>
            Reader START_RECORD [] [] LineStart (r_records m' ++ [r_fields m'])
        | s => Reader s (r_fields m') (r_field m') LineStart (r_records m')
        end).

(** One more character of the text. *)
Definition feed (m : reader) (c : N) : option reader :=
  m1 ← match r_line m with
       | AfterCR => if c =? 10 then Some m else end_of_line m
       | _ => Some m
       end;
  m2 ← parse_process_char m1 (Some c);
  if c =? 10 then end_of_line m2
  else Some (set_line m2 (if c =? 13 then AfterCR else InLine)).

Fixpoint feed_all (text : str) (m : reader) : option reader :=
  match text with
  | [] => Some m
  | c :: text' => feed m c ≫= feed_all text'
  end.

(** The end of the text: the last line ends if it has not, and a record
    that is still open in a quoted field is yielded as it stands. *)
Definition end_of_input (m : reader) : option (list (list str)) :=
  m' ← match r_line m with
       | LineStart => Some m
       | _ => end_of_line m
       end;
  Some (match r_state m', r_field m' with
        | IN_QUOTED_FIELD, _ | _, _ :: _ =>
            r_records m' ++ [r_fields m' ++ [r_field m']]
        | _, [] => r_records m'
        end).

Definition new_reader : reader := Reader START_RECORD [] [] LineStart [].

(** [list(csv.reader(f))] for a file of this text; [None] when the reader
    raises [_csv.Error]. *)
Definition csv_rows (text : str) : option csv_file :=
  feed_all text new_reader ≫= end_of_input.

(** The reader is between two records at the start of a line. *)
Definition at_line_start (m : reader) : bool :=
  match m with
  | Reader START_RECORD [] [] LineStart _ => true
  | _ => false
  end.

(** The text is empty or ends with a line terminator [\n] that is not part
    of a quoted field. *)
Definition terminated (text : str) : bool :=
  match feed_all text new_reader with
  | Some m => at_line_start m
  | None => false
  end.

(** The rows of a file that may be absent. *)
Definition read_file (file : option str) : option (option csv_file) :=
  match file with
  | None => Some None
  | Some text => Some <$> csv_rows text
  end.

(** [load_existing_results()] on the text of the file *)
Definition load_existing_results_text (file : option str) : option (gset key) :=
  load_existing_results <$> read_file file.

(** What [save_results] does to the text of the file and what it prints. *)
Record text_outcome := {
  text_after : option str;
  text_printed : message
}.

(** [save_results(results, append)] on the text of the file; [None] when
    reading the file raises [_csv.Error].  With mode ['a'] the rows are
    written after the last character of the file, whatever it is. *)
Definition save_results_text (results : list result) (append : bool)
    (file : option str) : option text_outcome :=
  match results with
  | [] => Some {| text_after := file; text_printed := NoResultsToSave |}
  | _ :: _ =>
      let fields := fieldnames ++ extra_keys results in
      existing ← (if append then load_existing_results_text file else Some ∅);
      match new_results results existing with
      | [] => Some {| text_after := file; text_printed := NoNewResults |}
      | new =>
          let rows := writerows (dict_to_list fields <$> new) in
          let written :=
            match file with
            | Some text => if append then text ++ rows else writerow fields ++ rows
            | None => writerow fields ++ rows
            end in
          Some {| text_after := Some written; text_printed := Saved (length new) |}
      end
  end.

(** A text short enough for a field of the reader. *)
Definition short (s : str) : Prop := N.of_nat (length s) <= field_limit.

(** The keys and values of the record are short. *)
Definition fits (r : result) : Prop :=
  forall k v, r !! k = Some v -> short k /\ short v.

(** ** Dates: datetime.strptime, timedelta and strftime *)

Local Open Scope Z_scope.

Definition is_leap (y : Z) : bool :=
  (y mod 4 =? 0) && (negb (y mod 100 =? 0) || (y mod 400 =? 0)).

Definition days_in_month (y m : Z) : Z :=
  if m =? 2 then (if is_leap y then 29 else 28)
  else if (m =? 4) || (m =? 6) || (m =? 9) || (m =? 11) then 30
  else 31.

Definition days_before_year (y : Z) : Z :=
  let y := y - 1 in y * 365 + y / 4 - y / 100 + y / 400.

Definition days_before_month (y m : Z) : Z :=
  nth (Z.to_nat m) [0; 0; 31; 59; 90; 120; 151; 181; 212; 243; 273; 304; 334] 0
  + (if (2 <? m) && is_leap y then 1 else 0).

(** [d.toordinal()]: 1 for 0001-01-01 *)
Definition toordinal (d : date) : Z :=
  days_before_year (year d) + days_before_month (year d) (month d) + day d.

(** [date.fromordinal(n)] *)
Definition fromordinal (n : Z) : date :=
  let n := n - 1 in
  let n400 := n / 146097 in
  let n := n mod 146097 in
  let n100 := n / 36524 in
  let n := n mod 36524 in
  let n4 := n / 1461 in
  let n := n mod 1461 in
  let n1 := n / 365 in
  let n := n mod 365 in
  let y := n400 * 400 + 1 + n100 * 100 + n4 * 4 + n1 in
  if (n1 =? 4) || (n100 =? 4) then {| year := y - 1; month := 12; day := 31 |}
  else
    let leapyear := (n1 =? 3) && (negb (n4 =? 24) || (n100 =? 3)) in
    let m := (n + 50) / 32 in
    let before m :=
      nth (Z.to_nat m) [0; 0; 31; 59; 90; 120; 151; 181; 212; 243; 273; 304; 334] 0
      + (if (2 <? m) && leapyear then 1 else 0) in
    let m := if n <? before m then m - 1 else m in
    {| year := y; month := m; day := n - before m + 1 |}.

Section Strptime.
Context {UD : UnicodeData}.

Definition digit_at (c : N) : option Z := Z.of_N <$> decimal_value c.

(** [datetime.strptime(s, '%Y-%m-%d')] on a text of the shape
    [\d{4}-\d{2}-\d{2}], the only one the program passes; [None] stands for
    [ValueError].  The year is four decimal digits of any script, the month
    is [0[1-9]|1[0-2]] and the day [0[1-9]|[12]\d|3[01]]. *)
Definition strptime (s : str) : option date :=
  match s with
  | [y1; y2; y3; y4; 45; m1; m2; 45; d1; d2]%N =>
      match digit_at y1, digit_at y2, digit_at y3, digit_at y4 with
      | Some a, Some b, Some c, Some d =>
          let y := 1000 * a + 100 * b + 10 * c + d in
          let m :=
            if ((m1 =? 48) && (49 <=? m2) && (m2 <=? 57))%N
               || ((m1 =? 49) && (48 <=? m2) && (m2 <=? 50))%N
            then Some (10 * (Z.of_N m1 - 48) + (Z.of_N m2 - 48)) else None in
          let dd :=
            if ((d1 =? 48) && (49 <=? d2) && (d2 <=? 57))%N
               || ((d1 =? 51) && (48 <=? d2) && (d2 <=? 49))%N
            then Some (10 * (Z.of_N d1 - 48) + (Z.of_N d2 - 48))
            else if ((d1 =? 49) || (d1 =? 50))%N
            then (fun v => 10 * (Z.of_N d1 - 48) + v) <$> digit_at d2
            else None in
          match m, dd with
          | Some m, Some dd =>
              if (1 <=? y) && (dd <=? days_in_month y m)
              then Some {| year := y; month := m; day := dd |}
              else None
          | _, _ => None
          end
      | _, _, _, _ => None
      end
  | _ => None
  end.

End Strptime.

(** ** The orchestrator: fetch_single_week and backfill_weeks *)

Inductive exn :=
  | RequestException
  | ValueError
  | OverflowError.

(** [clean_text(text)] with the exception it can raise: [ValueError] from
    [html.unescape], and otherwise the text of [clean_text]. *)
Definition clean_text_outcome `{UD : UnicodeData} (text : str) : exn + str :=
  if unescape_raises (strip_tags text) then inl ValueError
  else inr (clean_text text).

(** What the program cannot control: the answer of the server to the
    [n]-th request of the run, for the date it asks ([None]: the current
    report), and the date of the day on which the [n]-th page is parsed. *)
Record env := {
  net : nat -> option str -> exn + str;
  clock : nat -> date
}.

(** The dataset file and the requests sent so far. *)
Record world := {
  dataset : option csv_file;
  requests : list (option str)
}.

Section Orchestrator.
Context {UD : UnicodeData}.
Variable CLUB_NAME : str.
Variable E : env.

(** [fetch_html(event_date)]: the date goes into the URL unless it is
    [None] or empty. *)
Definition fetch_html (event_date : option str) (w : world) : world * (exn + str) :=
  let req := match event_date with
             | Some (c :: d) => Some (c :: d)
             | _ => None
             end in
  ({| dataset := dataset w; requests := requests w ++ [req] |},
   net E (length (requests w)) req).

(** [parse_results(html)] followed by [save_results(results, append=True)] *)
Definition parse_and_save (html : str) (w : world) : world :=
  let results := parse_results CLUB_NAME (clock E (length (requests w))) html in
  {| dataset := file_after (save_results results true (dataset w));
     requests := requests w |}.

(** [fetch_single_week(event_date)]; [save_results] is called only for a
    result list that is not empty, on which it does nothing anyway. *)
Definition fetch_single_week (event_date : option str) (w : world)
  : world * (exn + list result) :=
  match fetch_html event_date w with
  | (w1, inl e) => (w1, inl e)
  | (w1, inr html) =>
      let results := parse_results CLUB_NAME (clock E (length (requests w1))) html in
      (match results with
       | [] => w1
       | _ :: _ => parse_and_save html w1
       end, inr results)
  end.

(** The [try] block of the loop of [backfill_weeks], with its handler
    [except Exception: continue]. *)
Definition backfill_week (date_str : str) (w : world) : world :=
  match fetch_html (Some date_str) w with
  | (w1, inl _) => w1
  | (w1, inr html) => parse_and_save html w1
  end.

(** The loop [for i in range(1, num_weeks)] over the remaining values of
    [i]; [latest] is the ordinal of [latest_date].  The subtraction of the
    [timedelta] is outside the [try] block and raises [OverflowError] below
    0001-01-01. *)
Fixpoint backfill_loop (latest : Z) (weeks : list nat) (w : world)
  : world * (exn + unit) :=
  match weeks with
  | [] => (w, inr tt)
  | i :: weeks' =>
      let prev := latest - 7 * Z.of_nat i in
      if prev <? 1 then (w, inl OverflowError)
      else backfill_loop latest weeks' (backfill_week (strftime (fromordinal prev)) w)
  end.

(** [backfill_weeks(num_weeks)] *)
Definition backfill_weeks (num_weeks : nat) (w : world) : world * (exn + unit) :=
  match fetch_html None w with
  | (w1, inl e) => (w1, inl e)
  | (w1, inr html) =>
      match search_date html with
      | None => (w1, inr tt)
      | Some g =>
          match strptime g with
          | None => (w1, inl ValueError)
          | Some latest_date =>
              backfill_loop (toordinal latest_date) (seq 1 (num_weeks - 1))
                (parse_and_save html w1)
          end
      end
  end.

End Orchestrator.

Local Close Scope Z_scope.

(** ** The words of the specification, for comparison *)

Definition starts_space (s : str) : bool :=
  match s with
  | c :: _ => isspace c
  | [] => false
  end.

(** Every run of white space replaced by one space. *)
Fixpoint collapse_ws (s : str) : str :=
  match s with
  | [] => []
  | c :: r =>
      if isspace c then (if starts_space r then collapse_ws r else 32 :: collapse_ws r)
      else c :: collapse_ws r
  end.

(** A markup tag: [<], at least one character other than [>], and [>]. *)
Definition is_tag (t : str) : Prop :=
  exists body, t = [60] ++ body ++ [62] /\ body <> [] /\ (62 ∉ body).

(** No tag starts at any position of [s]. *)
Fixpoint tag_free (s : str) : bool :=
  match s with
  | [] => true
  | c :: r => bool_decide (tag_at s = None) && tag_free r
  end.

(** A list of words as [split] returns them: none empty, none with white
    space. *)
Definition words_ok (ws : list str) : Prop :=
  forall w, w ∈ ws -> w <> [] /\ forall c, c ∈ w -> isspace c = false.




(** ** The data rows of a page, before the club filter *)

Section DataRows.
Context {UD : UnicodeData}.

(** The dictionaries of the data rows of a table: one for every row that has
    cells, the first row of the table excepted (its cells are the
    headers); [i] and [headers] are as in [rows_loop]. *)
Fixpoint table_data_rows (i : nat) (headers : list str) (rows : list str)
  : list result :=
  match rows with
  | [] => []
  | row :: rows' =>
      let cells := clean_text <$> findall_cells row in
      match cells with
      | [] => table_data_rows (S i) headers rows'
      | _ :: _ =>
          if (i =? 0)%nat then table_data_rows (S i) cells rows'
          else make_row headers cells :: table_data_rows (S i) headers rows'
      end
  end.

(** The data rows of a section, each with the event name of the section. *)
Definition section_data_rows (section : str) : list (str * result) :=
  match h2_match section with
  | None => []
  | Some g =>
      match search_table section with
      | None => []
      | Some table_html =>
          (fun d => (event_name_of g, d))
            <$> table_data_rows 0 [] (findall_rows table_html)
      end
  end.

(** The data rows of a page, in document order. *)
Definition data_rows (html : str) : list (str * result) :=
  mjoin (section_data_rows <$> tail (re_split h2_at html)).

(** The club filter on a data row. *)
Definition included (CLUB_NAME : str) (p : str * result) : Prop :=
  is_match CLUB_NAME (club_of p.2) = true.

#[export] Instance included_dec CLUB_NAME p : Decision (included CLUB_NAME p).
Proof. unfold included. apply _. Defined.

(** The heading texts (group 1 of the heading pattern) of the sections of a
    page. *)
Definition headings (html : str) : list str :=
  omap h2_match (tail (re_split h2_at html)).

End DataRows.

(** ** What a call of save_results writes to *)

(** The file [save_results] writes to when it writes: the rows already
    there in append mode, else a new file that starts with the header. *)
Definition base_file (fields : list str) (append : bool) (file : option csv_file)
  : csv_file :=
  match file with
  | Some f => if append then f else [fields]
  | None => [fields]
  end.

(** A dataset as [save_results] leaves it: absent, or with a header that
    starts with the fixed columns and has no other Date, Event or
    parkrunner column. *)
Definition own_dataset (file : option csv_file) : Prop :=
  match file with
  | None => True
  | Some [] => False
  | Some (header :: _) =>
      exists extras, header = fieldnames ++ extras
        /\ (u "Date" ∉ extras) /\ (u "Event" ∉ extras)
        /\ (u "parkrunner" ∉ extras)
  end.

(** ** The weeks of a backfill run *)

Section Weeks.
Context {UD : UnicodeData}.
Variable CLUB_NAME : str.
Variable E : env.

(** The dates a run of [num_weeks] weeks asks for after the current report:
    7, 14, ... days before the latest date, whose ordinal is [latest]. *)
Definition week_dates (latest : Z) (num_weeks : nat) : list str :=
  (fun i => strftime (fromordinal (latest - 7 * Z.of_nat i)%Z))
    <$> seq 1 (num_weeks - 1).

(** The dataset after the reports asked for by [reqs] have been dealt with
    in order, the first of them being request number [n] of the run: a
    report that arrives is parsed and saved, a request that fails leaves
    the dataset as it is. *)
Fixpoint accumulate (n : nat) (reqs : list (option str)) (file : option csv_file)
  : option csv_file :=
  match reqs with
  | [] => file
  | req :: reqs' =>
      accumulate (S n) reqs'
        match net E n req with
        | inl _ => file
        | inr html =>
            file_after
              (save_results (parse_results CLUB_NAME (clock E (S n)) html) true file)
        end
  end.

End Weeks.

(** ** main *)

(** What [main] raises: an exception of [fetch_html], or the [KeyError] of
    the summary for a record without the key [k]. *)
Inductive main_exn :=
  | FetchFailed (e : exn)
  | KeyError (k : str).

(** The keys a line of the summary reads, in the order it reads them. *)
Definition summary_keys : list str :=
  [u "Date"; u "Event"; u "parkrunner"; u "Time"].

(** The first key a line of the summary reads that the record lacks. *)
Definition summary_line (r : result) : option str :=
  list_find (fun k => r !! k = None) summary_keys ≫= fun p => Some p.2.

(** The loop that prints the summary: the key whose look-up raises, if one
    does. *)
Fixpoint summary (results : list result) : option str :=
  match results with
  | [] => None
  | r :: rs =>
      match summary_line r with
      | Some k => Some k
      | None => summary rs
      end
  end.

Section Main.
Context {UD : UnicodeData}.
Variable CLUB_NAME : str.
Variable E : env.

(** [main()]: the results are saved before the summary is printed, and
    both handlers re-raise. *)
Definition main (w : world) : world * (main_exn + unit) :=
  match fetch_html E None w with
  | (w1, inl e) => (w1, inl (FetchFailed e))
  | (w1, inr html) =>
      let results := parse_results CLUB_NAME (clock E (length (requests w1))) html in
      match results with
      | [] => (w1, inr tt)
      | _ :: _ =>
          let w2 := {| dataset := file_after (save_results results true (dataset w1));
                       requests := requests w1 |} in
          match summary results with
          | Some k => (w2, inl (KeyError k))
          | None => (w2, inr tt)
          end
      end
  end.

End Main.

(** ** Sample data *)

(** Unicode data that knows ASCII only, with a few named references; it
    agrees with the interpreter's on ASCII text. *)
#[local] Instance ascii_data : UnicodeData.
Proof.
  refine {| str_lower := fmap ascii_lower;
            decimal_value := fun c => if is_dec c then Some (c - 48) else None;
            html5 := fun s =>
              if bool_decide (s = u "nbsp;") then Some [160]
              else if bool_decide (s = u "amp;") then Some [38]
              else if bool_decide (s = u "amp") then Some [38]
              else if bool_decide (s = u "lt;") then Some [60]
              else if bool_decide (s = u "gt;") then Some [62]
              else None |}.
  - reflexivity.
  - reflexivity.
  - reflexivity.
Defined.

(** A day for [datetime.now()]. *)
Definition a_day : date := {| year := 2026; month := 11; day := 4 |}.

(** A page with one event; its table has two header cells and a data row of
    three cells. *)
Definition overflow_page : str := u
"<p>Runners who participated at a parkrun on 2024-06-01</p>
<h2>Bushy Park parkrun</h2>
<table><tr><th>parkrunner</th><th>Club</th></tr>
<tr><td>Alice</td><td>Westbourne RC</td><td> 21:30 </td></tr>
</table>".

(** A page whose only heading is blank. *)
Definition blank_heading_page : str := u
"<h2> </h2><table><tr><th>Club</th></tr><tr><td>Westbourne</td></tr></table>".

(** A page on which the same runner is listed twice in one event. *)
Definition twin_page : str := u
"<p>Runners who participated at a parkrun on 2024-06-01</p>
<h2>Bushy Park parkrun</h2>
<table><tr><th>parkrunner</th><th>Club</th></tr>
<tr><td>Alice</td><td>Westbourne RC</td></tr>
<tr><td>Alice</td><td>Westbourne RC</td></tr>
</table>".

(** A page with a runner whose Club is written in lower case and a runner of
    another club. *)
Definition club_page : str := u
"<h2>Bushy Park parkrun</h2>
<table><tr><th>parkrunner</th><th>Club</th></tr>
<tr><td>Alice</td><td>westbourne rc</td></tr>
<tr><td>Bob</td><td>Other Harriers</td></tr>
</table>".

(** The report of a week: one event with one runner of the club. *)
Definition week_page (d : string) : str :=
  u "<p>Runners who participated at a parkrun on " ++ u d ++ u "</p>
<h2>Bushy Park parkrun</h2>
<table><tr><th>parkrunner</th><th>Club</th></tr>
<tr><td>Alice</td><td>Westbourne RC</td></tr></table>".



(** A record with fixed columns only. *)
Definition alice : result :=
  <[u "Date" := u "2024-06-01"]>
    (<[u "Event" := u "Bushy Park"]>
       (<[u "parkrunner" := u "Alice"]> (<[u "Club" := u "Westbourne RC"]> ∅))).

(** A record with a column outside the fixed list. *)
Definition bob_graded : result :=
  <[u "Date" := u "2024-06-08"]>
    (<[u "Event" := u "Bushy Park"]>
       (<[u "parkrunner" := u "Bob"]>
          (<[u "Club" := u "Westbourne RC"]> (<[u "Age Grade" := u "61%"]> ∅)))).

(** A dataset as a first run that found [alice] leaves it. *)
Definition alice_file : csv_file := [fieldnames; dict_to_list fieldnames alice].

(** A server that answers every request with the same page. *)
Definition constant_env (html : str) : env :=
  {| net := fun _ _ => inr html; clock := fun _ => a_day |}.

(** A server on which the report of 2024-05-25 cannot be fetched. *)
Definition flaky_env : env :=
  {| net := fun _ req =>
       match req with
       | None => inr (week_page "2024-06-01")
       | Some d =>
           if decide (d = u "2024-05-18") then inr (week_page "2024-05-18")
           else inl RequestException
       end;
     clock := fun _ => a_day |}.

(** The state before the first run: no dataset, no request sent. *)
Definition fresh : world := {| dataset := None; requests := [] |}.

(** ** Facts about the scanning functions *)

Lemma finditer_skip {A} (m : str -> option (A * str)) k s :
  finditer m k s = finditer m 0 (drop k s).
Proof.
  revert k. induction s as [|c r IH]; intros [|k]; simpl; try reflexivity.
  apply IH.
Qed.

Lemma finditer_match {A} (m : str -> option (A * str)) c r a rest :
  m (c :: r) = Some (a, rest) -> rest `suffix_of` r ->
  finditer m 0 (c :: r)
  = (([], a) :: fst (finditer m 0 rest), snd (finditer m 0 rest)).
Proof.
  intros Hm [l ->]. simpl. rewrite Hm, finditer_skip.
  rewrite length_app.
  replace (length l + length rest - length rest)%nat with (length l) by lia.
  rewrite drop_app_length. destruct (finditer m 0 rest); reflexivity.
Qed.

Lemma re_sub_nil {A} (m : str -> option (A * str)) repl : re_sub m repl [] = [].
Proof. reflexivity. Qed.

Lemma re_sub_no_match {A} (m : str -> option (A * str)) repl c r :
  m (c :: r) = None -> re_sub m repl (c :: r) = c :: re_sub m repl r.
Proof.
  intros Hm. unfold re_sub. simpl. rewrite Hm.
  destruct (finditer m 0 r) as [[|[pre a] ms] tl]; reflexivity.
Qed.

Lemma re_sub_match {A} (m : str -> option (A * str)) repl c r a rest :
  m (c :: r) = Some (a, rest) -> rest `suffix_of` r ->
  re_sub m repl (c :: r) = repl a ++ re_sub m repl rest.
Proof.
  intros Hm Hs. unfold re_sub. rewrite (finditer_match _ _ _ _ _ Hm Hs).
  destruct (finditer m 0 rest) as [ms tl]. simpl. by rewrite <- app_assoc.
Qed.

(** ** Facts about clean_text *)

Lemma span_app p s : fst (span p s) ++ snd (span p s) = s.
Proof.
  induction s as [|c r IH]; simpl; [reflexivity|].
  destruct (p c); [|reflexivity].
  destruct (span p r); simpl in *. by rewrite IH.
Qed.

Lemma span_snd_suffix p s : snd (span p s) `suffix_of` s.
Proof. exists (fst (span p s)). by rewrite span_app. Qed.

Lemma span_snd_head p s c b : snd (span p s) = c :: b -> p c = false.
Proof.
  induction s as [|x r IH]; simpl; [discriminate|].
  destruct (p x) eqn:Hx.
  - destruct (span p r); simpl in *. exact IH.
  - simpl. intros [= <- _]. exact Hx.
Qed.

Lemma span_all p s : forallb p s = true -> span p s = (s, []).
Proof.
  induction s as [|x r IH]; simpl; [reflexivity|].
  intros [Hx Hr]%andb_true_iff. rewrite Hx, (IH Hr). reflexivity.
Qed.

Lemma span_stop p a c r :
  forallb p a = true -> p c = false -> span p (a ++ c :: r) = (a, c :: r).
Proof.
  intros Ha Hc. induction a as [|x a IH]; simpl in *.
  - by rewrite Hc.
  - apply andb_true_iff in Ha as [Hx Ha]. by rewrite Hx, (IH Ha).
Qed.

Lemma tag_at_cons c r :
  tag_at (c :: r)
  = if c =? 60 then
      match span (fun c => negb (c =? 62)) r with
      | (_ :: _, 62 :: rest) => Some (tt, rest)
      | _ => None
      end
    else None.
Proof.
  destruct (N.eqb_spec c 60) as [->|Hc]; [reflexivity|].
  unfold tag_at.
  destruct c as [|p]; [reflexivity|].
  do 6 (destruct p as [p|p|]; try reflexivity). congruence.
Qed.

Lemma tag_at_suffix s a rest :
  tag_at s = Some (a, rest) -> exists c r, s = c :: r /\ rest `suffix_of` r.
Proof.
  destruct s as [|c r]; [discriminate|]. rewrite tag_at_cons.
  destruct (c =? 60); [|discriminate].
  pose proof (span_snd_suffix (fun c => negb (c =? 62)) r) as Hs.
  destruct (span _ r) as [[|x a'] b]; [discriminate|]. simpl in Hs.
  destruct b as [|y b]; [discriminate|].
  destruct (N.eqb_spec y 62) as [->|Hy].
  - intros [= _ <-]. exists c, r. split; [reflexivity|].
    destruct Hs as [l ->]. exists (l ++ [62]). by rewrite <- app_assoc.
  - intros H. exfalso. revert H.
    destruct y as [|p]; [discriminate|].
    do 6 (destruct p as [p|p|]; try discriminate). congruence.
Qed.

Lemma strip_tags_cons c r :
  strip_tags (c :: r)
  = match tag_at (c :: r) with
    | Some (_, rest) => strip_tags rest
    | None => c :: strip_tags r
    end.
Proof.
  unfold strip_tags. destruct (tag_at (c :: r)) as [[a rest]|] eqn:Hm.
  - destruct (tag_at_suffix _ _ _ Hm) as (c' & r' & [= <- <-] & Hs).
    by rewrite (re_sub_match _ _ _ _ _ _ Hm Hs).
  - by apply re_sub_no_match.
Qed.

Lemma strip_tags_elem n s x :
  (length s <= n)%nat -> x ∈ strip_tags s -> x ∈ s.
Proof.
  revert s. induction n as [|n IH]; intros [|c r] Hn; simpl in Hn;
    try (intros H; exact H); try lia.
  rewrite strip_tags_cons.
  destruct (tag_at (c :: r)) as [[a rest]|] eqn:Hm.
  - destruct (tag_at_suffix _ _ _ Hm) as (c' & r' & [= <- <-] & [l ->]).
    intros Hx. apply IH in Hx.
    + set_solver.
    + rewrite length_app in Hn. lia.
  - intros [->|Hx]%elem_of_cons; [left|right; apply IH; [lia|exact Hx]].
Qed.

Lemma strip_tags_tag_free n s :
  (length s <= n)%nat -> tag_free (strip_tags s) = true.
Proof.
  revert s. induction n as [|n IH]; intros [|c r] Hn; simpl in Hn;
    try reflexivity; try lia.
  rewrite strip_tags_cons.
  destruct (tag_at (c :: r)) as [[a rest]|] eqn:Hm.
  - destruct (tag_at_suffix _ _ _ Hm) as (c' & r' & [= <- <-] & [l ->]).
    apply IH. rewrite length_app in Hn. lia.
  - change (tag_free (c :: strip_tags r))
      with (bool_decide (tag_at (c :: strip_tags r) = None) && tag_free (strip_tags r)).
    rewrite (IH r) by lia. rewrite andb_true_r.
    apply bool_decide_eq_true.
    rewrite tag_at_cons in Hm |- *.
    destruct (c =? 60); [|reflexivity].
    pose proof (span_app (fun c => negb (c =? 62)) r) as Happ.
    pose proof (span_snd_head (fun c => negb (c =? 62)) r) as Hhd.
    destruct (span _ r) as [a b] eqn:Hsp. simpl in Happ, Hhd.
    destruct b as [|y b].
    + (* no [>] in [r], hence none in what is left of it *)
      rewrite app_nil_r in Happ. subst a.
      assert (forallb (fun c => negb (c =? 62)) (strip_tags r) = true) as Hall.
      { apply forallb_forall. intros x Hx%list_elem_of_In.
        apply (strip_tags_elem n) in Hx; [|lia].
        destruct (N.eqb_spec x 62) as [->|]; [|reflexivity].
        exfalso. clear -Hx Hsp. revert Hsp Hx.
        induction r as [|z r IHr]; simpl; [intros _ H; inversion H|].
        destruct (N.eqb_spec z 62) as [->|Hz]; simpl; [discriminate|].
        destruct (span _ r) as [a' b'] eqn:E. intros [= <- ->].
        intros [?|?]%elem_of_cons; [congruence|]. by apply IHr. }
      rewrite (span_all _ _ Hall). by destruct (strip_tags r).
    + specialize (Hhd y b eq_refl).
      apply negb_false_iff, N.eqb_eq in Hhd. subst y.
      destruct a as [|x a]; [|done].
      simpl in Happ. subst r.
      rewrite strip_tags_cons. replace (tag_at (62 :: b)) with (@None (unit * str)) by reflexivity.
      reflexivity.
Qed.

Lemma is_tag_tag_at t r : is_tag t -> tag_at (t ++ r) <> None.
Proof.
  intros (body & -> & Hne & Hnot).
  change (([60] ++ body ++ [62]) ++ r) with (60 :: ((body ++ [62]) ++ r)).
  rewrite tag_at_cons. simpl. rewrite <- app_assoc. simpl.
  rewrite span_stop.
  - destruct body; [done|]. discriminate.
  - apply forallb_forall. intros x Hx%list_elem_of_In.
    destruct (N.eqb_spec x 62) as [->|]; [done|reflexivity].
  - reflexivity.
Qed.

Lemma tag_free_no_tag s l t r :
  tag_free s = true -> s = l ++ t ++ r -> ~ is_tag t.
Proof.
  intros Hs -> Ht. revert Hs. induction l as [|x l IH]; simpl.
  - destruct Ht as (body & -> & Hne & Hnot).
    pose proof (is_tag_tag_at ([60] ++ body ++ [62]) r
                  (ex_intro _ body (conj eq_refl (conj Hne Hnot)))) as Hn.
    simpl in *. intros [H _]%andb_true_iff. apply bool_decide_eq_true in H.
    contradiction.
  - intros [_ H]%andb_true_iff. by apply IH.
Qed.

Lemma rstrip_cons_word c r : isspace c = false -> rstrip (c :: r) = c :: rstrip r.
Proof. intros Hc. simpl. rewrite Hc. by destruct (rstrip r). Qed.

Lemma rstrip_idemp s : rstrip (rstrip s) = rstrip s.
Proof.
  induction s as [|c r IH]; [reflexivity|]. simpl.
  destruct (rstrip r) as [|x r'] eqn:Hr.
  - destruct (isspace c) eqn:Hc; [reflexivity|]. simpl. by rewrite Hc.
  - simpl. simpl in IH. rewrite IH. reflexivity.
Qed.

Lemma lstrip_starts s : starts_space (lstrip s) = false.
Proof.
  induction s as [|c r IH]; [reflexivity|]. simpl.
  destruct (isspace c) eqn:Hc; [exact IH|]. simpl. exact Hc.
Qed.

Lemma lstrip_id s : starts_space s = false -> lstrip s = s.
Proof. destruct s as [|c r]; [reflexivity|]. simpl. by intros ->. Qed.

Lemma rstrip_starts s : starts_space s = false -> starts_space (rstrip s) = false.
Proof.
  destruct s as [|c r]; [reflexivity|]. intros Hc. simpl in Hc.
  by rewrite rstrip_cons_word.
Qed.

Lemma strip_idemp s : strip (strip s) = strip s.
Proof.
  unfold strip. rewrite (lstrip_id (rstrip (lstrip s))).
  - apply rstrip_idemp.
  - apply rstrip_starts, lstrip_starts.
Qed.

Lemma split_lstrip s : split (lstrip s) = split s.
Proof.
  induction s as [|c r IH]; [reflexivity|]. simpl.
  destruct (isspace c) eqn:Hc; [exact IH|]. simpl. by rewrite Hc.
Qed.

Lemma split_words s w : w ∈ split s -> w <> [].
Proof.
  revert w. induction s as [|c r IH]; simpl; intros w.
  - intros H. inversion H.
  - destruct (isspace c); [apply IH|].
    destruct (starts_word r).
    + destruct (split r) as [|w' ws].
      * intros ->%list_elem_of_singleton. discriminate.
      * intros [->|H]%elem_of_cons; [discriminate|]. apply IH. by right.
    + intros [->|H]%elem_of_cons; [discriminate|]. by apply IH.
Qed.

Lemma split_starts_word r : starts_word r = true -> split r <> [].
Proof.
  destruct r as [|c r]; [discriminate|]. simpl. intros Hc.
  apply negb_true_iff in Hc. rewrite Hc.
  destruct (starts_word r); [|discriminate].
  destruct (split r); discriminate.
Qed.

Lemma lstrip_collapse_ws s : lstrip (collapse_ws s) = collapse_ws (lstrip s).
Proof.
  induction s as [|c r IH]; [reflexivity|]. simpl.
  destruct (isspace c) eqn:Hc.
  - destruct (starts_space r); [exact IH|]. simpl. exact IH.
  - simpl. by rewrite Hc.
Qed.

Lemma rstrip_collapse_ws s :
  rstrip (collapse_ws s)
  = if starts_space s then
      match split s with
      | [] => []
      | ws => 32 :: join [32] ws
      end
    else join [32] (split s).
Proof.
  induction s as [|c r IH]; [reflexivity|].
  simpl collapse_ws. simpl split. simpl starts_space.
  destruct (isspace c) eqn:Hc.
  - destruct (starts_space r) eqn:Hr; [exact IH|].
    simpl rstrip. rewrite IH.
    destruct (split r) as [|w ws] eqn:Hs; [reflexivity|].
    assert (w <> []) as Hw by (apply (split_words r); rewrite Hs; by left).
    destruct w as [|x w]; [done|]. by destruct ws.
  - rewrite rstrip_cons_word by exact Hc. rewrite IH.
    destruct r as [|c' r']; [reflexivity|].
    simpl starts_space. simpl starts_word.
    destruct (isspace c') eqn:Hc'; simpl negb; cbv iota.
    + by destruct (split (c' :: r')).
    + pose proof (split_starts_word (c' :: r')) as Hne. simpl starts_word in Hne.
      rewrite Hc' in Hne. specialize (Hne eq_refl).
      destruct (split (c' :: r')) as [|w ws]; [done|]. by destruct ws.
Qed.

(** The source's [' '.join(text.split())] is the specification's "collapse
    the runs of white space, then trim". *)
Lemma join_split_collapse s : join [32] (split s) = strip (collapse_ws s).
Proof.
  unfold strip. rewrite lstrip_collapse_ws, rstrip_collapse_ws.
  by rewrite lstrip_starts, split_lstrip.
Qed.

(** ** Facts about the rows of a table *)

Lemma uint_str_inj d d' : uint_str d = uint_str d' -> d = d'.
Proof.
  revert d'. induction d; destruct d'; simpl; intros H;
    try discriminate; try reflexivity;
    injection H as H; f_equal; by apply IHd.
Qed.

Lemma decimal_inj n m : decimal n = decimal m -> n = m.
Proof.
  unfold decimal. intros H%uint_str_inj.
  rewrite <- (Unsigned.of_to n), <- (Unsigned.of_to m). by rewrite H.
Qed.

Lemma column_overflow (headers : list str) (j : nat) :
  (length headers <= j)%nat -> column headers j = u "Column" ++ decimal (S j).
Proof. intros H. unfold column. by rewrite (lookup_ge_None_2 headers j H). Qed.

Lemma fill_lookup_other (headers : list str) (j0 : nat) (cells : list str)
    (d : result) (k : str) :
  (forall i, (i < length cells)%nat -> column headers (j0 + i) <> k) ->
  fill headers j0 cells d !! k = d !! k.
Proof.
  revert j0 d. induction cells as [|c cs IH]; intros j0 d Hk; [reflexivity|].
  simpl. rewrite IH.
  - apply lookup_insert_ne. specialize (Hk 0%nat). rewrite Nat.add_0_r in Hk.
    apply Hk. simpl. lia.
  - intros i Hi. replace (S j0 + i)%nat with (j0 + S i)%nat by lia.
    apply Hk. simpl. lia.
Qed.

Lemma fill_lookup_last (headers : list str) (j0 : nat) (cells : list str)
    (d : result) (i : nat) (cell : str) :
  cells !! i = Some cell ->
  (forall i', (i < i')%nat -> (i' < length cells)%nat ->
     column headers (j0 + i') <> column headers (j0 + i)) ->
  fill headers j0 cells d !! column headers (j0 + i) = Some cell.
Proof.
  revert j0 d i. induction cells as [|c cs IH]; intros j0 d i Hi Hlast;
    [discriminate|].
  destruct i as [|i]; simpl in Hi |- *.
  - injection Hi as ->. rewrite Nat.add_0_r. rewrite fill_lookup_other.
    + apply lookup_insert_eq.
    + intros i Hi. replace (S j0 + i)%nat with (j0 + S i)%nat by lia.
      rewrite <- (Nat.add_0_r j0) at 2. apply Hlast; simpl; lia.
  - replace (j0 + S i)%nat with (S j0 + i)%nat by lia. apply IH; [exact Hi|].
    intros i' H1 H2. replace (S j0 + i')%nat with (j0 + S i')%nat by lia.
    replace (S j0 + i)%nat with (j0 + S i)%nat by lia.
    apply Hlast; simpl; lia.
Qed.

Lemma make_row_overflow (headers cells : list str) (j : nat) (cell : str) :
  (length headers <= j)%nat -> cells !! j = Some cell ->
  make_row headers cells !! (u "Column" ++ decimal (S j)) = Some cell.
Proof.
  intros Hj Hc. rewrite <- (column_overflow headers j Hj).
  unfold make_row. change j with (0 + j)%nat. apply fill_lookup_last; [exact Hc|].
  simpl. intros i' H1 H2. rewrite !column_overflow by lia.
  intros H%app_inv_head%decimal_inj. lia.
Qed.

Lemma annotate_lookup_ne (ev dt : str) (d : result) (k : str) :
  k <> u "Date" -> k <> u "Event" -> annotate ev dt d !! k = d !! k.
Proof.
  intros H1 H2. unfold annotate. by rewrite !lookup_insert_ne.
Qed.

(** C7.  Overflow columns: a cell at an index [j] (from 0) at or beyond the
    number of header cells is stored under the synthesized name
    [Column<j+1>], in the row dictionary and in the record made from it; so
    with two header cells and three data cells the key [Column3] holds the
    cleaned text of the third cell, as it does in the record parsed from
    [overflow_page]. *)
Theorem overflow_columns (headers cells : list str) (j : nat) (cell ev dt : str) :
  (length headers <= j)%nat -> cells !! j = Some cell ->
  column headers j = u "Column" ++ decimal (S j)
  /\ make_row headers cells !! (u "Column" ++ decimal (S j)) = Some cell
  /\ annotate ev dt (make_row headers cells) !! (u "Column" ++ decimal (S j))
     = Some cell
  /\ (forall (UD : UnicodeData) h1 h2 row c1 c2 c3,
        findall_cells row = [c1; c2; c3] ->
        make_row [h1; h2] (clean_text <$> findall_cells row) !! u "Column3"
        = Some (clean_text c3))
  /\ (forall now,
        exists r, parse_results (UD := ascii_data) (u "Westbourne") now overflow_page = [r]
                  /\ r !! u "Column3" = Some (u "21:30")).
Proof.
  intros Hj Hc. split; [|split; [|split; [|split]]].
  - by apply column_overflow.
  - by apply make_row_overflow.
  - rewrite annotate_lookup_ne; [by apply make_row_overflow| |];
      change (u "Column") with [67; 111; 108; 117; 109; 110]; discriminate.
  - intros UD h1 h2 row c1 c2 c3 ->.
    change (u "Column3") with (u "Column" ++ decimal 3).
    apply make_row_overflow; [simpl; lia|reflexivity].
  - intros now. eexists. split; [vm_compute; reflexivity|].
    vm_compute. reflexivity.
Qed.

Lemma overflow_columns_witness :
  make_row [u "parkrunner"; u "Club"] [u "Alice"; u "Westbourne RC"; u "21:30"]
    !! (u "Column" ++ decimal 3) = Some (u "21:30").
Proof.
  apply (overflow_columns [u "parkrunner"; u "Club"]
           [u "Alice"; u "Westbourne RC"; u "21:30"] 2 (u "21:30") [] []).
  - simpl. lia.
  - reflexivity.
Defined.

(** ** Facts about the club filter *)

Lemma is_prefix_spec a b : is_prefix a b = true <-> exists r, b = a ++ r.
Proof.
  revert b. induction a as [|x a IH]; intros b; simpl.
  - split; [intros _; by exists b|done].
  - destruct b as [|y b].
    + split; [discriminate|]. intros [r Hr]. discriminate.
    + rewrite andb_true_iff, N.eqb_eq, IH. split.
      * intros [-> [r ->]]. by exists r.
      * intros [r [= -> ->]]. split; [done|]. by exists r.
Qed.

(** [contains] is the substring test. *)
Lemma contains_spec a b : contains a b = true <-> exists l r, b = l ++ a ++ r.
Proof.
  induction b as [|y b IH]; simpl.
  - rewrite orb_false_r, is_prefix_spec. split.
    + intros [r Hr]. by exists [], r.
    + intros (l & r & H). destruct l; [by exists r|discriminate].
  - rewrite orb_true_iff, is_prefix_spec, IH. split.
    + intros [[r Hr]|(l & r & ->)]; [by exists [], r|by exists (y :: l), r].
    + intros ([|x l] & r & H); [left; by exists r|].
      injection H as -> ->. right. by exists l, r.
Qed.

Section Inclusion.
Context {UD : UnicodeData}.
Variable CLUB_NAME : str.

Lemma rows_loop_filter ev dt i headers rows :
  rows_loop CLUB_NAME ev dt i headers rows
  = (fun p : str * result => annotate p.1 dt p.2)
      <$> filter (included CLUB_NAME) ((fun d => (ev, d)) <$> table_data_rows i headers rows).
Proof.
  revert i headers. induction rows as [|row rows IH]; intros i headers;
    [reflexivity|].
  simpl. destruct (clean_text <$> findall_cells row) as [|c cells]; [apply IH|].
  destruct (i =? 0)%nat; [apply IH|].
  rewrite fmap_cons, filter_cons.
  destruct (decide (included CLUB_NAME (ev, make_row headers (c :: cells))))
    as [Hin|Hout].
  - unfold included in Hin. simpl in Hin.
    rewrite Hin, fmap_cons. simpl. by rewrite IH.
  - unfold included in Hout. simpl in Hout.
    apply not_true_is_false in Hout. rewrite Hout. apply IH.
Qed.

Lemma section_results_filter dt section :
  section_results CLUB_NAME dt section
  = (fun p : str * result => annotate p.1 dt p.2)
      <$> filter (included CLUB_NAME) (section_data_rows section).
Proof.
  unfold section_results, section_data_rows.
  destruct (h2_match section) as [g|]; [|reflexivity].
  destruct (search_table section) as [t|]; [|reflexivity].
  apply rows_loop_filter.
Qed.

Lemma parse_results_filter now html :
  parse_results CLUB_NAME now html
  = (fun p : str * result => annotate p.1 (event_date_of now html) p.2)
      <$> filter (included CLUB_NAME) (data_rows html).
Proof.
  unfold parse_results, data_rows.
  induction (tail (re_split h2_at html)) as [|sec secs IH]; [reflexivity|].
  rewrite !fmap_cons. simpl. rewrite filter_app, fmap_app.
  by rewrite IH, section_results_filter.
Qed.

End Inclusion.

Lemma club_of_annotate (ev dt : str) (d : result) : club_of (annotate ev dt d) = club_of d.
Proof. unfold club_of. by rewrite annotate_lookup_ne. Qed.

Lemma data_rows_club_page `{UD : UnicodeData} :
  data_rows club_page
  = [(u "Bushy Park", make_row [u "parkrunner"; u "Club"] [u "Alice"; u "westbourne rc"]);
     (u "Bushy Park", make_row [u "parkrunner"; u "Club"] [u "Bob"; u "Other Harriers"])].
Proof. vm_compute. reflexivity. Qed.

(** C6.  Row inclusion: the records the parser returns are the data rows of
    the page that pass the club filter, in document order, and a data row
    passes the filter if and only if the lower-cased filter is a substring
    of the lower-cased value of its [Club] column (the empty string when
    the row has no such column).  So a data row appears in the output if
    and only if its Club value contains the filter, both lower-cased.  On a
    page with a row of Club ["westbourne rc"] and a row of Club
    ["Other Harriers"] the parser with filter ["Westbourne"] returns the
    first row only. *)
Theorem row_inclusion `{UD : UnicodeData} (CLUB_NAME : str) (now : date) (html : str) :
  parse_results CLUB_NAME now html
  = (fun p : str * result => annotate p.1 (event_date_of now html) p.2)
      <$> filter (included CLUB_NAME) (data_rows html)
  /\ (forall p : str * result,
        included CLUB_NAME p
        <-> exists l r, str_lower (default [] (p.2 !! u "Club"))
                        = l ++ str_lower CLUB_NAME ++ r)
  /\ (forall ev d, (ev, d) ∈ data_rows html ->
        (annotate ev (event_date_of now html) d ∈ parse_results CLUB_NAME now html
         <-> exists l r, str_lower (default [] (d !! u "Club"))
                         = l ++ str_lower CLUB_NAME ++ r))
  /\ is_match (u "Westbourne") (u "westbourne rc") = true
  /\ is_match (u "Westbourne") (u "Other Harriers") = false
  /\ data_rows club_page
     = [(u "Bushy Park",
         {[ u "parkrunner" := u "Alice"; u "Club" := u "westbourne rc" ]});
        (u "Bushy Park",
         {[ u "parkrunner" := u "Bob"; u "Club" := u "Other Harriers" ]})]
  /\ parse_results (u "Westbourne") now club_page
     = [ {[ u "Date" := event_date_of now club_page;
            u "Event" := u "Bushy Park";
            u "parkrunner" := u "Alice";
            u "Club" := u "westbourne rc" ]} ].
Proof.
  assert (Hyes : is_match (u "Westbourne") (u "westbourne rc") = true)
    by (unfold is_match; rewrite !str_lower_ascii by reflexivity;
        vm_compute; reflexivity).
  assert (Hno : is_match (u "Westbourne") (u "Other Harriers") = false)
    by (unfold is_match; rewrite !str_lower_ascii by reflexivity;
        vm_compute; reflexivity).
  split; [apply parse_results_filter|].
  split; [intros p; unfold included, is_match, club_of; apply contains_spec|].
  split; [|split; [exact Hyes|split; [exact Hno|split]]].
  - intros ev d Hd. rewrite parse_results_filter, <- contains_spec.
    fold (club_of d). fold (is_match CLUB_NAME (club_of d)). split.
    + intros ([ev' d'] & Heq & [Hin _]%list_elem_of_filter)%list_elem_of_fmap.
      unfold included in Hin. simpl in *.
      by rewrite <- (club_of_annotate ev (event_date_of now html) d), Heq,
        club_of_annotate.
    + intros Hm. apply list_elem_of_fmap. exists (ev, d). split; [reflexivity|].
      apply list_elem_of_filter. by split.
  - rewrite data_rows_club_page. reflexivity.
  - rewrite parse_results_filter, data_rows_club_page.
    rewrite filter_cons_True by exact Hyes.
    rewrite filter_cons_False by (unfold included; simpl; fold (club_of
      (make_row [u "parkrunner"; u "Club"] [u "Bob"; u "Other Harriers"]));
      change (club_of _) with (u "Other Harriers"); by rewrite Hno).
    reflexivity.
Qed.

(** ** Facts about the date and the event name of a record *)

Lemma re_search_Some {A} (m : str -> option (A * str)) s a :
  re_search m s = Some a -> exists s' rest, m s' = Some (a, rest).
Proof.
  induction s as [|c r IH]; simpl.
  - destruct (m []) as [[a' rest]|] eqn:Hm; [|discriminate].
    intros [= ->]. by exists [], rest.
  - destruct (m (c :: r)) as [[a' rest]|] eqn:Hm; [|exact IH].
    intros [= ->]. by exists (c :: r), rest.
Qed.

Lemma strftime_nonempty d : strftime d <> [].
Proof.
  unfold strftime. intros H. apply app_eq_nil in H as [_ H]. discriminate.
Qed.

Lemma search_date_nonempty `{UD : UnicodeData} html d :
  search_date html = Some d -> d <> [].
Proof.
  intros (s & rest & Hm)%re_search_Some. unfold date_at in Hm.
  destruct (match_prefix _ s) as [r|]; [|discriminate].
  destruct r as [|c r]; [discriminate|].
  destruct (match_prefix ymd_pattern (c :: r)); [|discriminate].
  injection Hm as <- _. discriminate.
Qed.

Lemma event_date_nonempty `{UD : UnicodeData} now html : event_date_of now html <> [].
Proof.
  unfold event_date_of. destruct (search_date html) as [d|] eqn:Hd.
  - by apply (search_date_nonempty html).
  - apply strftime_nonempty.
Qed.

Lemma lstrip_nil s : lstrip s = [] <-> forallb isspace s = true.
Proof.
  induction s as [|c r IH]; simpl; [done|].
  destruct (isspace c); simpl; [exact IH|]. split; discriminate.
Qed.

Lemma strip_nil s : strip s = [] <-> forallb isspace s = true.
Proof.
  rewrite <- lstrip_nil. unfold strip.
  pose proof (lstrip_starts s) as Hs.
  destruct (lstrip s) as [|c r]; [done|]. simpl in Hs.
  rewrite rstrip_cons_word by exact Hs. split; discriminate.
Qed.

Lemma strip_starts s : starts_space (strip s) = false.
Proof. unfold strip. apply rstrip_starts, lstrip_starts. Qed.

Lemma sre_lower_space c : sre_lower c = 32 -> c = 32.
Proof.
  unfold sre_lower.
  destruct ((65 <=? c) && (c <=? 90)) eqn:H1.
  - apply andb_true_iff in H1 as [H1%N.leb_le _]. lia.
  - destruct (c =? 8490); [discriminate|].
    destruct (c =? 304); [discriminate|]. done.
Qed.

Lemma event_name_nil g : event_name_of g = [] <-> forallb isspace g = true.
Proof.
  rewrite <- strip_nil. unfold event_name_of.
  pose proof (strip_starts g) as Hs.
  destruct (strip g) as [|c r]; [done|]. simpl in Hs.
  rewrite re_sub_no_match; [split; discriminate|].
  unfold parkrun_suffix_at.
  change (lit_ci " parkrun") with ((fun c => sre_lower c =? 32) :: lit_ci "parkrun").
  cbn [match_prefix].
  destruct (N.eqb_spec (sre_lower c) 32) as [Hc%sre_lower_space|]; [|reflexivity].
  subst c. discriminate.
Qed.

Lemma data_rows_heading `{UD : UnicodeData} html ev d :
  (ev, d) ∈ data_rows html -> exists g, g ∈ headings html /\ ev = event_name_of g.
Proof.
  unfold data_rows, headings.
  intros (l & Hin & (sec & -> & Hsec)%list_elem_of_fmap)%list_elem_of_join.
  unfold section_data_rows in Hin.
  destruct (h2_match sec) as [g|] eqn:Hg; [|inversion Hin].
  destruct (search_table sec); [|inversion Hin].
  apply list_elem_of_fmap in Hin as (d' & [= -> ->] & _).
  exists g. split; [|reflexivity]. apply list_elem_of_omap. by exists sec.
Qed.

Lemma section_results_record `{UD : UnicodeData} (CLUB_NAME dt section : str)
    (r : result) :
  r ∈ section_results CLUB_NAME dt section ->
  exists g, h2_match section = Some g
    /\ r !! u "Date" = Some dt
    /\ r !! u "Event" = Some (event_name_of g).
Proof.
  unfold section_results.
  destruct (h2_match section) as [g|]; [|intros H; inversion H].
  destruct (search_table section) as [t|]; [|intros H; inversion H].
  rewrite rows_loop_filter.
  intros ([ev d] & -> & [_ Hin]%list_elem_of_filter)%list_elem_of_fmap.
  apply list_elem_of_fmap in Hin as (d' & [= -> ->] & _).
  exists g. split; [reflexivity|]. simpl. unfold annotate. split.
  - apply lookup_insert_eq.
  - rewrite lookup_insert_ne by discriminate. apply lookup_insert_eq.
Qed.

(** C4, as the code has it.  The records of a page are those of its
    sections, in order.  Every record carries the Date of the page, which is
    not empty, and as Event the name made from the heading of the section
    it was parsed from: that heading stripped of surrounding white space
    and of a final [ parkrun].  This name is empty exactly when the heading
    is white space only. *)
Theorem records_carry_date_and_event `{UD : UnicodeData}
    (CLUB_NAME : str) (now : date) (html : str) (r : result) :
  r ∈ parse_results CLUB_NAME now html ->
  parse_results CLUB_NAME now html
  = mjoin (section_results CLUB_NAME (event_date_of now html)
             <$> tail (re_split h2_at html))
  /\ event_date_of now html <> []
  /\ (exists section g,
        section ∈ tail (re_split h2_at html)
        /\ r ∈ section_results CLUB_NAME (event_date_of now html) section
        /\ h2_match section = Some g
        /\ r !! u "Date" = Some (event_date_of now html)
        /\ r !! u "Event" = Some (event_name_of g)
        /\ (event_name_of g = [] <-> forallb isspace g = true))
  /\ (forall dt section g r',
        r' ∈ section_results CLUB_NAME dt section ->
        h2_match section = Some g ->
        r' !! u "Date" = Some dt /\ r' !! u "Event" = Some (event_name_of g)).
Proof.
  intros Hr. split; [reflexivity|]. split; [apply event_date_nonempty|]. split.
  - unfold parse_results in Hr.
    apply list_elem_of_join in Hr as (l & Hin & (section & -> & Hsec)%list_elem_of_fmap).
    destruct (section_results_record _ _ _ _ Hin) as (g & Hg & Hd & He).
    exists section, g. repeat (split; [done|]). apply event_name_nil.
  - intros dt section g r' Hr' Hg.
    destruct (section_results_record _ _ _ _ Hr') as (g' & Hg' & Hd & He).
    rewrite Hg in Hg'. injection Hg' as <-. by split.
Qed.

Lemma records_carry_date_and_event_witness :
  let r := annotate (u "Bushy Park") (u "2024-06-01")
             (make_row [u "parkrunner"; u "Club"]
                [u "Alice"; u "Westbourne RC"; u "21:30"]) in
  exists section g,
    section ∈ tail (re_split h2_at overflow_page)
    /\ r ∈ section_results (UD := ascii_data) (u "Westbourne")
             (event_date_of (UD := ascii_data) a_day overflow_page) section
    /\ h2_match section = Some g
    /\ r !! u "Date" = Some (event_date_of (UD := ascii_data) a_day overflow_page)
    /\ r !! u "Event" = Some (event_name_of g)
    /\ (event_name_of g = [] <-> forallb isspace g = true).
Proof.
  apply (records_carry_date_and_event (UD := ascii_data) (u "Westbourne") a_day).
  assert (parse_results (UD := ascii_data) (u "Westbourne") a_day overflow_page
          = [annotate (u "Bushy Park") (u "2024-06-01")
               (make_row [u "parkrunner"; u "Club"]
                  [u "Alice"; u "Westbourne RC"; u "21:30"])]) as ->
    by (vm_compute; reflexivity).
  by left.
Defined.

(** C4 as stated fails: the record parsed from the section of
    [blank_heading_page] has an empty Event. *)
Lemma event_can_be_empty :
  ~ (forall (UD : UnicodeData) (CLUB_NAME : str) (now : date) (html : str) (r : result),
       r ∈ parse_results CLUB_NAME now html ->
       (exists d, r !! u "Date" = Some d /\ d <> [])
       /\ (exists e, r !! u "Event" = Some e /\ e <> [])).
Proof.
  intros H.
  destruct (parse_results (UD := ascii_data) (u "Westbourne") a_day blank_heading_page)
    as [|r l] eqn:E; [vm_compute in E; discriminate|].
  destruct (H ascii_data (u "Westbourne") a_day blank_heading_page r) as [_ (e & He & Hne)].
  - rewrite E. by left.
  - vm_compute in E. injection E as <- _. vm_compute in He.
    injection He as <-. done.
Qed.

(** ** Facts about load_existing_results *)

Lemma restval_lookup_other (ks : list str) (d : csv_dict) (k : str) :
  k ∉ ks -> fold_left (fun d k => <[k := None]> d) ks d !! k = d !! k.
Proof.
  revert d. induction ks as [|x ks IH]; intros d Hk; [reflexivity|].
  simpl. rewrite IH by set_solver. apply lookup_insert_ne. set_solver.
Qed.


Lemma dict_zip_lookup_other (hs vs : list str) (d : csv_dict) (k : str) :
  k ∉ hs -> dict_zip hs vs d !! k = d !! k.
Proof.
  revert vs d. induction hs as [|h hs IH]; intros vs d Hk; [reflexivity|].
  destruct vs as [|v vs]; [reflexivity|]. simpl.
  rewrite IH by set_solver. apply lookup_insert_ne. set_solver.
Qed.

Lemma dict_zip_lookup_last (hs vs : list str) (d : csv_dict) (i : nat) (k v : str) :
  hs !! i = Some k -> vs !! i = Some v -> k ∉ drop (S i) hs ->
  dict_zip hs vs d !! k = Some (Some v).
Proof.
  revert vs d i. induction hs as [|h hs IH]; intros vs d i Hh Hv Hk; [discriminate|].
  destruct vs as [|v' vs]; [discriminate|].
  destruct i as [|i]; simpl in Hh, Hv, Hk |- *.
  - injection Hh as ->. injection Hv as ->.
    rewrite dict_zip_lookup_other by exact Hk.
    apply lookup_insert_eq.
  - by apply (IH vs _ i).
Qed.

(** A column absent from the header is absent from the dictionary. *)
Lemma dict_of_row_absent (header row : list str) (k : str) :
  k ∉ header -> dict_of_row header row !! k = None.
Proof.
  intros Hk. unfold dict_of_row. rewrite restval_lookup_other.
  - by rewrite dict_zip_lookup_other.
  - intros Hin. apply Hk. by apply (subseteq_drop (length row) header).
Qed.

(** The cell under the last column of that name. *)
Lemma dict_of_row_cell (header row : list str) (i : nat) (k v : str) :
  header !! i = Some k -> row !! i = Some v -> k ∉ drop (S i) header ->
  dict_of_row header row !! k = Some (Some v).
Proof.
  intros Hh Hv Hk. unfold dict_of_row. rewrite restval_lookup_other.
  - by apply (dict_zip_lookup_last _ _ _ i).
  - intros Hin. apply Hk.
    apply lookup_lt_Some in Hv.
    replace (length row) with (S i + (length row - S i))%nat in Hin by lia.
    rewrite <- drop_drop in Hin. by apply (subseteq_drop (length row - S i)).
Qed.



(** ** Facts about save_results *)

Lemma save_results_unfold (results : list result) (append : bool)
    (file : option csv_file) :
  let fields := fieldnames ++ extra_keys results in
  let existing := if append then load_existing_results file else ∅ in
  save_results results append file
  = match new_results results existing with
    | [] => {| file_after := file;
               printed := match results with
                          | [] => NoResultsToSave
                          | _ => NoNewResults
                          end;
               returned := PyNone |}
    | new => {| file_after :=
                  Some (base_file fields append file ++ (dict_to_list fields <$> new));
                printed := Saved (length new);
                returned := PyNone |}
    end.
Proof.
  destruct results as [|r rs]; [reflexivity|].
  unfold save_results. cbv zeta.
  destruct (new_results (r :: rs) _) as [|n ns]; [reflexivity|].
  unfold base_file. by destruct file, append.
Qed.


Lemma elem_of_new_results (results : list result) (existing : gset key) (r : result) :
  r ∈ new_results results existing <-> (result_key r ∉ existing) /\ (r ∈ results).
Proof. unfold new_results. by rewrite list_elem_of_filter. Qed.

Lemma new_results_nil (results : list result) (existing : gset key) :
  new_results results existing = []
  <-> forall r, r ∈ results -> result_key r ∈ existing.
Proof.
  split.
  - intros H r Hr. destruct (decide (result_key r ∈ existing)) as [|Hn]; [done|].
    assert (r ∈ new_results results existing) as Hin.
    { by apply elem_of_new_results. }
    rewrite H in Hin. inversion Hin.
  - intros H. destruct (new_results results existing) as [|r l] eqn:E; [done|].
    assert (r ∈ new_results results existing) as Hin.
    { rewrite E. by left. }
    apply elem_of_new_results in Hin as [Hn Hr]. exfalso. apply Hn. by apply H.
Qed.

(** C5.  A record of a batch is written if and only if its identity triple
    is absent from the keys loaded from the dataset before the call writes
    anything, whatever else the batch holds; so two records of one batch
    that share a triple absent from the dataset are both written. *)
Theorem same_batch_duplicates_both_written (r1 r2 : result) (file : option csv_file) :
  result_key r1 = result_key r2 ->
  result_key r1 ∉ load_existing_results file ->
  let fields := fieldnames ++ extra_keys [r1; r2] in
  (forall results r, r ∈ results ->
     (r ∈ new_results results (load_existing_results file)
      <-> result_key r ∉ load_existing_results file))
  /\ new_results [r1; r2] (load_existing_results file) = [r1; r2]
  /\ printed (save_results [r1; r2] true file) = Saved 2
  /\ file_after (save_results [r1; r2] true file)
     = Some (base_file fields true file
             ++ [dict_to_list fields r1; dict_to_list fields r2]).
Proof.
  intros Heq Hnew fields.
  assert (new_results [r1; r2] (load_existing_results file) = [r1; r2]) as Hn.
  { unfold new_results. rewrite !filter_cons, filter_nil.
    rewrite <- Heq. by rewrite !decide_True. }
  split; [|split; [exact Hn|]].
  - intros results r Hr. rewrite elem_of_new_results. tauto.
  - rewrite save_results_unfold. cbv zeta. rewrite Hn. by split.
Qed.

Lemma same_batch_duplicates_both_written_witness :
  new_results [alice; alice] (load_existing_results None) = [alice; alice].
Proof.
  apply (same_batch_duplicates_both_written alice alice None).
  - reflexivity.
  - unfold load_existing_results. simpl. set_solver.
Defined.

(** C2, as the code has it.  [save_results] returns no value on any path:
    the number of records written, counted after the duplicate filter, is
    only printed.  The filter leaves nothing exactly when every record's
    identity triple is among the existing keys (so also for an empty
    list); the call then leaves the dataset as it is and prints that there
    is nothing to save.  Otherwise it writes the records that passed the
    filter and prints how many they are. *)
Theorem save_results_returns_nothing (results : list result) (append : bool)
    (file : option csv_file) :
  let fields := fieldnames ++ extra_keys results in
  let existing := if append then load_existing_results file else ∅ in
  let new := new_results results existing in
  let out := save_results results append file in
  returned out = PyNone
  /\ (new = [] <-> forall r, r ∈ results -> result_key r ∈ existing)
  /\ (new = [] ->
      file_after out = file
      /\ printed out = match results with
                       | [] => NoResultsToSave
                       | _ => NoNewResults
                       end)
  /\ (new <> [] ->
      printed out = Saved (length new)
      /\ file_after out
         = Some (base_file fields append file ++ (dict_to_list fields <$> new))).
Proof.
  cbv zeta. rewrite save_results_unfold. cbv zeta.
  split; [|split; [apply new_results_nil|split]].
  - by destruct (new_results results _).
  - by intros ->.
  - by destruct (new_results results _).
Qed.

(** C2 as stated fails: a call that writes one record returns [None], not
    the count 1, which it only prints. *)
Lemma save_results_returns_no_count :
  printed (save_results [alice] true None) = Saved 1
  /\ returned (save_results [alice] true None) = PyNone
  /\ returned (save_results [alice] true None) <> PyInt 1.
Proof. split; [|split]; [vm_compute; reflexivity|reflexivity|discriminate]. Qed.

(** ** Facts about the header *)

Lemma str_leb_total a b : str_leb a b = true \/ str_leb b a = true.
Proof.
  revert b. induction a as [|x a IH]; intros [|y b]; simpl; auto.
  destruct (N.ltb_spec x y); [by left|].
  destruct (N.ltb_spec y x); [by right|].
  assert (x = y) as -> by lia. rewrite N.eqb_refl. simpl. apply IH.
Qed.

Lemma str_le_total : Total str_le.
Proof. intros a b. apply str_leb_total. Qed.

Lemma elem_of_extra_keys (results : list result) (k : str) :
  k ∈ extra_keys results <-> (k ∈ all_keys results) /\ (k ∉ fieldnames).
Proof.
  unfold extra_keys. rewrite merge_sort_Permutation, elem_of_elements.
  rewrite elem_of_difference, elem_of_list_to_set. reflexivity.
Qed.

Lemma extra_keys_sorted (results : list result) : Sorted str_le (extra_keys results).
Proof. apply (@Sorted_merge_sort _ str_le _ str_le_total). Qed.

Lemma elem_of_all_keys (results : list result) (k : str) :
  k ∈ all_keys results <-> exists r, r ∈ results /\ is_Some (r !! k).
Proof.
  induction results as [|r rs IH]; simpl.
  - split; [set_solver|]. intros (r & Hr & _). inversion Hr.
  - rewrite elem_of_union, IH, elem_of_dom. split.
    + intros [H|(r' & H1 & H2)]; [exists r; split; [by left|done]|].
      exists r'. split; [by right|done].
    + intros (r' & [->|H1]%elem_of_cons & H2); [by left|]. right. by exists r'.
Qed.

(** A file that exists is appended to as it is: its first row stays. *)
Lemma append_keeps_header (results : list result) (header : list str)
    (rows : list (list str)) :
  exists new_rows,
    file_after (save_results results true (Some (header :: rows)))
    = Some (header :: rows ++ new_rows).
Proof.
  rewrite save_results_unfold. cbv zeta.
  destruct (new_results results _) as [|n ns].
  - exists []. simpl. by rewrite app_nil_r.
  - eexists. simpl. reflexivity.
Qed.

(** C3: what the code does.  When [save_results] creates the dataset, the
    header is the fixed columns followed by the other columns of the
    records, sorted.  When it appends to a dataset that exists, the header
    stays as it is: appending [bob_graded], which has the column
    [Age Grade], to [alice_file] leaves the seven-column header and adds a
    row of eight cells, the last of them under no column. *)
Theorem append_does_not_extend_header :
  (forall results header rows,
     exists new_rows,
       file_after (save_results results true (Some (header :: rows)))
       = Some (header :: rows ++ new_rows))
  /\ file_after (save_results [bob_graded] true (Some alice_file))
     = Some [fieldnames;
             dict_to_list fieldnames alice;
             dict_to_list (fieldnames ++ [u "Age Grade"]) bob_graded]
  /\ (u "Age Grade" ∉ fieldnames)
  /\ length (dict_to_list (fieldnames ++ [u "Age Grade"]) bob_graded) = 8%nat
  /\ file_after (save_results [bob_graded] true None)
     = Some [fieldnames ++ [u "Age Grade"];
             dict_to_list (fieldnames ++ [u "Age Grade"]) bob_graded]
  /\ (forall results, Sorted str_le (extra_keys results)
        /\ forall k, k ∈ extra_keys results
                     <-> (k ∈ all_keys results) /\ (k ∉ fieldnames)).
Proof.
  split; [apply append_keeps_header|].
  split; [vm_compute; reflexivity|].
  split; [refine (bool_decide_unpack _ _); vm_compute; exact I|].
  split; [reflexivity|].
  split; [vm_compute; reflexivity|].
  intros results. split; [apply extra_keys_sorted|apply elem_of_extra_keys].
Qed.

(** ** Facts about reading back what save_results wrote *)

Lemma not_elem_of_fieldnames_tail (k : str) (fixed extras : list str) :
  bool_decide (k ∉ fixed) = true -> k ∉ extras -> k ∉ fixed ++ extras.
Proof.
  intros H1%bool_decide_eq_true H2. by apply not_elem_of_app.
Qed.

(** Read through the header of a dataset of its own, a row that
    [save_results] wrote has the identity triple of its record. *)
Lemma row_key_written (extras fields_extras : list str) (r : result) :
  u "Date" ∉ extras -> u "Event" ∉ extras -> u "parkrunner" ∉ extras ->
  row_key (dict_of_row (fieldnames ++ extras)
             (dict_to_list (fieldnames ++ fields_extras) r))
  = result_key r.
Proof.
  intros Hd He Hp. unfold row_key, result_key.
  rewrite (dict_of_row_cell _ _ 0 (u "Date") (default [] (r !! u "Date")));
    [|reflexivity|reflexivity|
     by apply (not_elem_of_fieldnames_tail _ (drop 1 fieldnames))].
  rewrite (dict_of_row_cell _ _ 1 (u "Event") (default [] (r !! u "Event")));
    [|reflexivity|reflexivity|
     by apply (not_elem_of_fieldnames_tail _ (drop 2 fieldnames))].
  rewrite (dict_of_row_cell _ _ 4 (u "parkrunner") (default [] (r !! u "parkrunner")));
    [|reflexivity|reflexivity|
     by apply (not_elem_of_fieldnames_tail _ (drop 5 fieldnames))].
  reflexivity.
Qed.

Lemma written_rows_nonempty (fields_extras : list str) (new : list result) :
  filter (fun row : list str => row <> [])
    (dict_to_list (fieldnames ++ fields_extras) <$> new)
  = dict_to_list (fieldnames ++ fields_extras) <$> new.
Proof.
  induction new as [|r new IH]; [reflexivity|].
  rewrite fmap_cons, filter_cons, IH. by rewrite decide_True.
Qed.

Lemma written_rows_keys (extras fields_extras : list str) (new : list result) :
  u "Date" ∉ extras -> u "Event" ∉ extras -> u "parkrunner" ∉ extras ->
  (fun row => row_key (dict_of_row (fieldnames ++ extras) row))
    <$> (dict_to_list (fieldnames ++ fields_extras) <$> new)
  = result_key <$> new.
Proof.
  intros Hd He Hp. rewrite <- list_fmap_compose. apply list_fmap_ext.
  intros i r _. simpl. by apply row_key_written.
Qed.

Lemma extra_keys_own (results : list result) (k : str) :
  k ∈ fieldnames -> k ∉ extra_keys results.
Proof. intros Hk [_ Hn]%elem_of_extra_keys. contradiction. Qed.

(** The keys in the dataset after a call in append mode: those that were
    there, then those of the records written. *)
Lemma save_results_keys (results : list result) (file : option csv_file) :
  own_dataset file ->
  file_keys (file_after (save_results results true file))
  = file_keys file
    ++ (result_key <$> new_results results (load_existing_results file)).
Proof.
  intros Hown. rewrite save_results_unfold. cbv zeta.
  destruct (new_results results _) as [|n ns] eqn:Hnew.
  { cbn [file_after fmap list_fmap]. by rewrite app_nil_r. }
  rewrite <- Hnew. clear Hnew. cbn [file_after].
  destruct file as [[|header rows]|]; cbn [own_dataset] in Hown; [done| |].
  - destruct Hown as (extras & -> & Hd & He & Hp).
    unfold base_file, file_keys, dict_reader. rewrite <- app_comm_cons.
    rewrite filter_app, !fmap_app, written_rows_nonempty.
    f_equal.
    rewrite <- (written_rows_keys extras (extra_keys results)) by done.
    by rewrite <- list_fmap_compose.
  - unfold base_file, file_keys, dict_reader. cbn [app].
    rewrite written_rows_nonempty.
    rewrite <- (written_rows_keys (extra_keys results) (extra_keys results)).
    + by rewrite <- list_fmap_compose.
    + apply extra_keys_own. refine (bool_decide_unpack _ _). vm_compute. exact I.
    + apply extra_keys_own. refine (bool_decide_unpack _ _). vm_compute. exact I.
    + apply extra_keys_own. refine (bool_decide_unpack _ _). vm_compute. exact I.
Qed.

(** [save_results] keeps a dataset of its own one of its own. *)
Lemma save_results_own (results : list result) (file : option csv_file) :
  own_dataset file -> own_dataset (file_after (save_results results true file)).
Proof.
  intros Hown. rewrite save_results_unfold. cbv zeta.
  destruct (new_results results _) as [|n ns]; [exact Hown|].
  cbn [file_after]. destruct file as [[|header rows]|]; cbn [own_dataset] in Hown;
    [done| |].
  - exact Hown.
  - cbn [base_file app own_dataset]. exists (extra_keys results).
    split; [reflexivity|].
    split; [|split]; apply extra_keys_own;
      refine (bool_decide_unpack _ _); vm_compute; exact I.
Qed.

(** Run again on the same records, [save_results] finds them all. *)
Lemma save_results_twice (results : list result) (file : option csv_file) :
  own_dataset file ->
  let file1 := file_after (save_results results true file) in
  new_results results (load_existing_results file1) = []
  /\ file_after (save_results results true file1) = file1.
Proof.
  intros Hown file1.
  assert (new_results results (load_existing_results file1) = []) as Hnil.
  { apply new_results_nil. intros r Hr. unfold load_existing_results, file1.
    rewrite save_results_keys by exact Hown.
    apply elem_of_list_to_set, elem_of_app.
    destruct (decide (result_key r ∈ load_existing_results file)) as [Hin|Hout].
    - left. by apply elem_of_list_to_set in Hin.
    - right. apply list_elem_of_fmap. exists r. split; [reflexivity|].
      by apply elem_of_new_results. }
  split; [exact Hnil|]. rewrite save_results_unfold. cbv zeta. by rewrite Hnil.
Qed.

Lemma save_results_nodup (results : list result) (file : option csv_file) :
  own_dataset file ->
  NoDup (file_keys file) -> NoDup (result_key <$> results) ->
  NoDup (file_keys (file_after (save_results results true file))).
Proof.
  intros Hown Hold Hnew. rewrite save_results_keys by exact Hown.
  apply NoDup_app. split; [exact Hold|]. split.
  - intros k Hk (r & -> & [Hr _]%elem_of_new_results)%list_elem_of_fmap.
    apply Hr. by apply elem_of_list_to_set.
  - apply (sublist_NoDup _ (result_key <$> results)); [exact Hnew|].
    apply fmap_sublist. unfold new_results. apply sublist_filter.
Qed.

(** ** Facts about fetch_single_week *)

Lemma parse_results_dated `{UD : UnicodeData} (CLUB_NAME : str) (now now' : date)
    (html : str) :
  search_date html <> None \/ now = now' ->
  parse_results CLUB_NAME now html = parse_results CLUB_NAME now' html.
Proof.
  intros [H| ->]; [|reflexivity]. unfold parse_results, event_date_of.
  by destruct (search_date html).
Qed.

Lemma fetch_single_week_ok `{UD : UnicodeData} (CLUB_NAME : str) (E : env)
    (w : world) (html : str) :
  net E (length (requests w)) None = inr html ->
  let results := parse_results CLUB_NAME (clock E (S (length (requests w)))) html in
  fetch_single_week CLUB_NAME E None w
  = ({| dataset := file_after (save_results results true (dataset w));
        requests := requests w ++ [None] |}, inr results).
Proof.
  intros Hnet results. unfold fetch_single_week, fetch_html, parse_and_save.
  rewrite Hnet. cbn [dataset requests].
  rewrite length_app, Nat.add_1_r. fold results.
  by destruct results.
Qed.

(** C1, as the code has it.  Two single-fetch runs that receive the same
    page, on a dataset that is absent or that this program wrote, the page
    naming its date or both runs taking place on the same day: the second
    run leaves the dataset as the first run left it; every identity triple
    of the parsed records is in the dataset; and it is there once when the
    parsed records have distinct triples and the dataset held no triple
    twice before. *)
Theorem single_fetch_twice `{UD : UnicodeData} (CLUB_NAME : str) (E : env)
    (w0 : world) (html : str) :
  net E (length (requests w0)) None = inr html ->
  net E (S (length (requests w0))) None = inr html ->
  search_date html <> None
    \/ clock E (S (length (requests w0))) = clock E (S (S (length (requests w0)))) ->
  own_dataset (dataset w0) ->
  let results := parse_results CLUB_NAME (clock E (S (length (requests w0)))) html in
  let w1 := (fetch_single_week CLUB_NAME E None w0).1 in
  let w2 := (fetch_single_week CLUB_NAME E None w1).1 in
  dataset w2 = dataset w1
  /\ (forall r, r ∈ results -> result_key r ∈ file_keys (dataset w2))
  /\ (NoDup (file_keys (dataset w0)) -> NoDup (result_key <$> results) ->
      NoDup (file_keys (dataset w2))).
Proof.
  intros Hnet0 Hnet1 Hday Hown results w1 w2.
  assert (w1 = {| dataset := file_after (save_results results true (dataset w0));
                  requests := requests w0 ++ [None] |}) as Hw1.
  { unfold w1. by rewrite (fetch_single_week_ok CLUB_NAME E w0 html Hnet0). }
  assert (length (requests w1) = S (length (requests w0))) as Hlen.
  { rewrite Hw1. cbn [requests]. rewrite length_app. simpl. lia. }
  assert (dataset w2 = file_after (save_results results true (dataset w1))) as Hw2.
  { unfold w2. rewrite (fetch_single_week_ok CLUB_NAME E w1 html).
    - cbn [fst dataset]. rewrite Hlen.
      by rewrite <- (parse_results_dated CLUB_NAME _ _ html Hday).
    - by rewrite Hlen. }
  assert (dataset w1 = file_after (save_results results true (dataset w0))) as Hd1
    by (by rewrite Hw1).
  destruct (save_results_twice results (dataset w0) Hown) as [Hnil Hsame].
  cbv zeta in Hnil, Hsame. rewrite <- Hd1 in Hnil, Hsame.
  rewrite Hw2, Hsame. split; [reflexivity|]. split.
  - intros r Hr. apply (elem_of_list_to_set (C := gset key)).
    fold (load_existing_results (dataset w1)).
    by apply (proj1 (new_results_nil results _) Hnil).
  - intros Hold Hnew. rewrite Hd1. by apply save_results_nodup.
Qed.

Lemma single_fetch_twice_witness :
  let w1 := (fetch_single_week (UD := ascii_data) (u "Westbourne")
               (constant_env overflow_page) None fresh).1 in
  let w2 := (fetch_single_week (UD := ascii_data) (u "Westbourne")
               (constant_env overflow_page) None w1).1 in
  dataset w2 = dataset w1.
Proof.
  apply (single_fetch_twice (UD := ascii_data) (u "Westbourne")
           (constant_env overflow_page) fresh overflow_page).
  - reflexivity.
  - reflexivity.
  - right. reflexivity.
  - exact I.
Defined.

(** C1 as stated fails: [twin_page] lists one runner twice in one event,
    and after two runs on it the dataset holds her identity triple twice. *)
Lemma twin_rows_are_both_written :
  let w1 := (fetch_single_week (UD := ascii_data) (u "Westbourne")
               (constant_env twin_page) None fresh).1 in
  let w2 := (fetch_single_week (UD := ascii_data) (u "Westbourne")
               (constant_env twin_page) None w1).1 in
  file_keys (dataset w2)
  = [(Some (u "2024-06-01"), Some (u "Bushy Park"), Some (u "Alice"));
     (Some (u "2024-06-01"), Some (u "Bushy Park"), Some (u "Alice"))]
  /\ ~ NoDup (file_keys (dataset w2)).
Proof.
  cbv zeta.
  assert (file_keys (dataset (fetch_single_week (UD := ascii_data) (u "Westbourne")
            (constant_env twin_page) None
            (fetch_single_week (UD := ascii_data) (u "Westbourne")
               (constant_env twin_page) None fresh).1).1)
          = [(Some (u "2024-06-01"), Some (u "Bushy Park"), Some (u "Alice"));
             (Some (u "2024-06-01"), Some (u "Bushy Park"), Some (u "Alice"))]) as ->
    by (vm_compute; reflexivity).
  split; [reflexivity|].
  intros H. apply NoDup_cons in H as [H _]. apply H. by left.
Qed.

(** ** Facts about backfill_weeks *)

Section Backfill.
Context {UD : UnicodeData}.
Variable CLUB_NAME : str.
Variable E : env.

Lemma fetch_html_dated (d : date) (w : world) :
  fetch_html E (Some (strftime d)) w
  = ({| dataset := dataset w; requests := requests w ++ [Some (strftime d)] |},
     net E (length (requests w)) (Some (strftime d))).
Proof.
  unfold fetch_html. pose proof (strftime_nonempty d) as Hne.
  by destruct (strftime d).
Qed.

(** One week of the loop: the request is sent, and the dataset changes only
    if the report arrives. *)
Lemma backfill_week_spec (d : date) (w : world) :
  backfill_week CLUB_NAME E (strftime d) w
  = {| dataset := accumulate CLUB_NAME E (length (requests w))
                    [Some (strftime d)] (dataset w);
       requests := requests w ++ [Some (strftime d)] |}.
Proof.
  unfold backfill_week. rewrite fetch_html_dated. cbn [accumulate].
  destruct (net E (length (requests w)) (Some (strftime d))) as [e|html];
    [reflexivity|].
  unfold parse_and_save. cbn [dataset requests].
  by rewrite length_app, Nat.add_1_r.
Qed.

Lemma backfill_loop_spec (latest : Z) (weeks : list nat) (w : world) :
  (forall i, i ∈ weeks -> (1 <= latest - 7 * Z.of_nat i)%Z) ->
  let reqs :=
    (fun i => Some (strftime (fromordinal (latest - 7 * Z.of_nat i)%Z))) <$> weeks in
  backfill_loop CLUB_NAME E latest weeks w
  = ({| dataset := accumulate CLUB_NAME E (length (requests w)) reqs (dataset w);
        requests := requests w ++ reqs |}, inr tt).
Proof.
  revert w. induction weeks as [|i weeks IH]; intros w Hrange reqs; unfold reqs.
  - simpl. rewrite app_nil_r. by destruct w.
  - cbn [backfill_loop].
    assert (1 <= latest - 7 * Z.of_nat i)%Z as Hi by (apply Hrange; by left).
    destruct (Z.ltb_spec (latest - 7 * Z.of_nat i) 1) as [Hlt|_]; [exfalso; lia|].
    rewrite backfill_week_spec, IH by (intros j Hj; apply Hrange; by right).
    cbn [dataset requests accumulate fmap list_fmap].
    rewrite length_app, Nat.add_1_r, <- app_assoc. reflexivity.
Qed.

End Backfill.

(** C10.  Partial-failure isolation: in a backfill run whose first request
    succeeds and names a date from which the earlier weeks can be counted
    back, every week is asked for, most recent first, whether or not
    earlier requests failed; the run ends normally; and the dataset is the
    one obtained by saving, in that order, the reports that arrived, a
    failed request leaving it as it was.  With the report of 2024-05-25
    failing in a run of 3 weeks from 2024-06-01, the three dates are asked
    for and the records of 2024-06-01 and 2024-05-18 are in the dataset. *)
Theorem backfill_isolates_failed_weeks `{UD : UnicodeData} (CLUB_NAME : str)
    (E : env) (num_weeks : nat) (w0 : world) (html g : str) (latest_date : date) :
  net E (length (requests w0)) None = inr html ->
  search_date html = Some g ->
  strptime g = Some latest_date ->
  (1 <= toordinal latest_date - 7 * (Z.of_nat num_weeks - 1))%Z ->
  let reqs := None :: (Some <$> week_dates (toordinal latest_date) num_weeks) in
  backfill_weeks CLUB_NAME E num_weeks w0
  = ({| dataset := accumulate CLUB_NAME E (length (requests w0)) reqs (dataset w0);
        requests := requests w0 ++ reqs |}, inr tt)
  /\ (let w := (backfill_weeks (UD := ascii_data) (u "Westbourne") flaky_env 3 fresh).1 in
      requests w = [None; Some (u "2024-05-25"); Some (u "2024-05-18")]
      /\ file_keys (dataset w)
         = [(Some (u "2024-06-01"), Some (u "Bushy Park"), Some (u "Alice"));
            (Some (u "2024-05-18"), Some (u "Bushy Park"), Some (u "Alice"))]).
Proof.
  intros Hnet Hdate Hlatest Hrange reqs. split; [|by vm_compute].
  unfold backfill_weeks, fetch_html. rewrite Hnet, Hdate, Hlatest.
  rewrite backfill_loop_spec.
  - unfold parse_and_save, reqs, week_dates. cbn [dataset requests accumulate].
    rewrite Hnet, length_app, Nat.add_1_r, <- app_assoc.
    rewrite <- list_fmap_compose. reflexivity.
  - intros i Hi%elem_of_seq. lia.
Qed.

Lemma backfill_isolates_failed_weeks_witness :
  backfill_weeks (UD := ascii_data) (u "Westbourne") flaky_env 3 fresh
  = ({| dataset :=
          accumulate (UD := ascii_data) (u "Westbourne") flaky_env 0
            [None; Some (u "2024-05-25"); Some (u "2024-05-18")] None;
        requests := [None; Some (u "2024-05-25"); Some (u "2024-05-18")] |},
     inr tt).
Proof.
  apply (backfill_isolates_failed_weeks (UD := ascii_data) (u "Westbourne")
           flaky_env 3 fresh (week_page "2024-06-01") (u "2024-06-01")
           {| year := 2024; month := 6; day := 1 |}).
  - reflexivity.
  - vm_compute. reflexivity.
  - vm_compute. reflexivity.
  - vm_compute. discriminate.
Defined.

(** * Further properties of the code *)

(** ** clean_text *)

Lemma split_no_space s w c : w ∈ split s -> c ∈ w -> isspace c = false.
Proof.
  revert w. induction s as [|x r IH]; simpl; intros w.
  - intros H. inversion H.
  - destruct (isspace x) eqn:Hx; [apply IH|].
    destruct (starts_word r).
    + destruct (split r) as [|w' ws].
      * intros ->%list_elem_of_singleton ->%list_elem_of_singleton. exact Hx.
      * intros [->|H]%elem_of_cons.
        -- intros [->|Hc]%elem_of_cons; [exact Hx|].
           apply (IH w'); [by left|exact Hc].
        -- intros Hc. apply (IH w); [by right|exact Hc].
    + intros [->|H]%elem_of_cons.
      * intros ->%list_elem_of_singleton. exact Hx.
      * by apply IH.
Qed.

Lemma split_words_ok s : words_ok (split s).
Proof.
  intros w Hw. split; [by apply (split_words s)|].
  intros c. by apply (split_no_space s).
Qed.

Lemma split_word_app (w rest : str) :
  w <> [] -> (forall c, c ∈ w -> isspace c = false) -> starts_word rest = false ->
  split (w ++ rest) = w :: split rest.
Proof.
  intros Hne Hw Hrest. induction w as [|c w IH]; [done|].
  assert (isspace c = false) as Hc by (apply Hw; by left).
  simpl. rewrite Hc. destruct w as [|c' w].
  - simpl. by rewrite Hrest.
  - assert (isspace c' = false) as Hc' by (apply Hw; right; by left).
    simpl starts_word. rewrite Hc'. simpl negb. cbv iota.
    rewrite IH; [reflexivity|discriminate|].
    intros x Hx. apply Hw. by right.
Qed.

Lemma split_join ws : words_ok ws -> split (join [32] ws) = ws.
Proof.
  induction ws as [|w ws IH]; intros Hok; [reflexivity|].
  destruct (Hok w) as [Hne Hw]; [by left|].
  assert (words_ok ws) as Hok' by (intros x Hx; apply Hok; by right).
  destruct ws as [|w' ws].
  - simpl. rewrite <- (app_nil_r w) at 1. by rewrite split_word_app.
  - change (join [32] (w :: w' :: ws)) with (w ++ 32 :: join [32] (w' :: ws)).
    rewrite split_word_app by done.
    change (split (32 :: join [32] (w' :: ws))) with (split (join [32] (w' :: ws))).
    by rewrite IH.
Qed.

Lemma join_chars ws c :
  words_ok ws -> c ∈ join [32] ws -> isspace c = true -> c = 32.
Proof.
  induction ws as [|w ws IH]; intros Hok; [intros H; inversion H|].
  destruct (Hok w) as [_ Hw]; [by left|].
  assert (words_ok ws) as Hok' by (intros x Hx; apply Hok; by right).
  destruct ws as [|w' ws].
  - simpl. intros Hc Hs. rewrite (Hw c Hc) in Hs. discriminate.
  - change (join [32] (w :: w' :: ws)) with (w ++ 32 :: join [32] (w' :: ws)).
    intros [Hc|[->|Hc]%elem_of_cons]%elem_of_app Hs; [|reflexivity|by apply IH].
    rewrite (Hw c Hc) in Hs. discriminate.
Qed.

Lemma clean_text_join `{UD : UnicodeData} (text : str) :
  clean_text text = join [32] (split (unescape (strip_tags text))).
Proof.
  unfold clean_text. change (u " ") with [32].
  rewrite join_split_collapse. apply strip_idemp.
Qed.

(** X1.  The text [clean_text] returns is in normal form for white space:
    its only white space characters are single spaces between words, so
    that splitting it into words and joining them again, or stripping it,
    gives it back, and it does not start with a space. *)
Theorem clean_text_normal_form `{UD : UnicodeData} (text : str) :
  (forall c, c ∈ clean_text text -> isspace c = true -> c = 32)
  /\ join [32] (split (clean_text text)) = clean_text text
  /\ strip (clean_text text) = clean_text text
  /\ starts_space (clean_text text) = false.
Proof.
  rewrite clean_text_join. set (x := unescape (strip_tags text)).
  split; [|split; [|split]].
  - intros c. apply join_chars, split_words_ok.
  - by rewrite split_join by apply split_words_ok.
  - rewrite join_split_collapse. apply strip_idemp.
  - rewrite join_split_collapse. apply strip_starts.
Qed.

Lemma tag_free_strip_tags s : tag_free s = true -> strip_tags s = s.
Proof.
  induction s as [|c r IH]; [reflexivity|].
  change (tag_free (c :: r))
    with (bool_decide (tag_at (c :: r) = None) && tag_free r).
  intros [Hc%bool_decide_eq_true Hr]%andb_true_iff.
  by rewrite strip_tags_cons, Hc, IH.
Qed.

Lemma tag_free_no_lt s : 60 ∉ s -> tag_free s = true.
Proof.
  induction s as [|c r IH]; [reflexivity|]. intros Hs.
  change (tag_free (c :: r))
    with (bool_decide (tag_at (c :: r) = None) && tag_free r).
  rewrite IH by set_solver. rewrite andb_true_r. apply bool_decide_eq_true.
  rewrite tag_at_cons. destruct (N.eqb_spec c 60) as [->|]; [|reflexivity].
  exfalso. apply Hs. by left.
Qed.

Lemma span_no_stop p s : (forall c, c ∈ s -> p c = true) -> span p s = (s, []).
Proof.
  intros H. apply span_all, forallb_forall. intros c Hc%list_elem_of_In. by apply H.
Qed.

Lemma tag_free_no_gt s : 62 ∉ s -> tag_free s = true.
Proof.
  induction s as [|c r IH]; [reflexivity|]. intros Hs.
  change (tag_free (c :: r))
    with (bool_decide (tag_at (c :: r) = None) && tag_free r).
  rewrite IH by set_solver. rewrite andb_true_r. apply bool_decide_eq_true.
  rewrite tag_at_cons. destruct (c =? 60); [|reflexivity].
  rewrite span_no_stop; [by destruct r|].
  intros x Hx. destruct (N.eqb_spec x 62) as [->|]; [|reflexivity].
  exfalso. apply Hs. by right.
Qed.

Lemma unescape_no_amp `{UD : UnicodeData} s : 38 ∉ s -> unescape s = s.
Proof.
  intros Hs. unfold unescape.
  destruct (existsb (N.eqb 38) s) eqn:E; [|reflexivity].
  apply existsb_exists in E as (x & Hx & Heq). apply N.eqb_eq in Heq. subst x.
  apply list_elem_of_In in Hx. contradiction.
Qed.

(** X2.  A cell without markup is only normalised for white space: when the
    text has no [<] or has no [>], no tag is removed (a lone [<] or [>]
    stays), and when it also has no [&], [clean_text] returns its words
    joined by single spaces. *)
Theorem clean_text_plain `{UD : UnicodeData} (text : str) :
  60 ∉ text \/ 62 ∉ text ->
  strip_tags text = text
  /\ (38 ∉ text -> clean_text text = join [32] (split text)).
Proof.
  intros H.
  assert (strip_tags text = text) as Hs.
  { apply tag_free_strip_tags. destruct H; [by apply tag_free_no_lt|].
    by apply tag_free_no_gt. }
  split; [exact Hs|]. intros Hamp.
  by rewrite clean_text_join, Hs, unescape_no_amp.
Qed.

Lemma clean_text_plain_witness :
  strip_tags (u "1 < 2") = u "1 < 2"
  /\ (38 ∉ u "1 < 2" ->
      clean_text (UD := ascii_data) (u "1 < 2") = join [32] (split (u "1 < 2"))).
Proof.
  apply (clean_text_plain (UD := ascii_data) (u "1 < 2")).
  right. refine (bool_decide_unpack _ _). vm_compute. exact I.
Defined.

(** X3.  Removing the tags twice removes nothing more than removing them
    once. *)
Theorem strip_tags_idempotent (text : str) :
  strip_tags (strip_tags text) = strip_tags text.
Proof.
  apply tag_free_strip_tags. by apply (strip_tags_tag_free (length text)).
Qed.

(** ** parse_results *)

Lemma make_row_zip_aux (headers cells : list str) (j : nat) (h : str) :
  NoDup headers -> (length cells <= length headers)%nat ->
  headers !! j = Some h ->
  make_row headers cells !! h = cells !! j.
Proof.
  intros Hnd Hlen Hh.
  assert (forall i, (i < length cells)%nat -> i <> j -> column headers i <> h) as Hne.
  { intros i Hi Hij. unfold column.
    destruct (headers !! i) as [h'|] eqn:Hi'.
    - intros ->. apply Hij. by apply (NoDup_lookup headers i j h).
    - apply lookup_ge_None in Hi'. lia. }
  destruct (cells !! j) as [cell|] eqn:Hc.
  - assert (column headers j = h) as Hcol by (unfold column; by rewrite Hh).
    rewrite <- Hcol. unfold make_row. change j with (0 + j)%nat at 1.
    apply fill_lookup_last; [exact Hc|].
    simpl. intros i' H1 H2. rewrite Hcol. apply Hne; lia.
  - unfold make_row. rewrite fill_lookup_other; [apply lookup_empty|].
    simpl. intros i Hi. apply Hne; [exact Hi|].
    apply lookup_ge_None in Hc. lia.
Qed.

(** X4.  A data row that is not longer than a header row without repeated
    names is zipped with it: the dictionary holds the cell at index [j]
    under the header at index [j], and has no entry for a header the row is
    too short to reach. *)
Theorem make_row_zip (headers cells : list str) (j : nat) (h : str) :
  NoDup headers -> (length cells <= length headers)%nat ->
  headers !! j = Some h ->
  make_row headers cells !! h = cells !! j
  /\ ((length cells <= j)%nat -> make_row headers cells !! h = None).
Proof.
  intros Hnd Hlen Hh. split; [by apply make_row_zip_aux|].
  intros Hj. rewrite (make_row_zip_aux headers cells j h) by done.
  by apply lookup_ge_None.
Qed.

Lemma make_row_zip_witness :
  make_row [u "Position"; u "parkrunner"; u "Club"] [u "7"; u "Alice"] !! u "Club"
  = [u "7"; u "Alice"] !! 2%nat
  /\ ((length [u "7"; u "Alice"] <= 2)%nat ->
      make_row [u "Position"; u "parkrunner"; u "Club"] [u "7"; u "Alice"]
        !! u "Club" = None).
Proof.
  apply (make_row_zip [u "Position"; u "parkrunner"; u "Club"] [u "7"; u "Alice"]
           2 (u "Club")).
  - refine (bool_decide_unpack _ _). vm_compute. exact I.
  - simpl. lia.
  - reflexivity.
Defined.

(** X5.  Every record the parser returns passes the club filter: its Club
    value, lower-cased, contains the lower-cased filter; and unless the
    filter lower-cases to the empty text, the record does have a Club
    column. *)
Theorem parsed_records_match_club `{UD : UnicodeData} (CLUB_NAME : str)
    (now : date) (html : str) (r : result) :
  r ∈ parse_results CLUB_NAME now html ->
  (exists a b, str_lower (club_of r) = a ++ str_lower CLUB_NAME ++ b)
  /\ (str_lower CLUB_NAME <> [] -> is_Some (r !! u "Club")).
Proof.
  rewrite parse_results_filter.
  intros ([ev d] & -> & [Hin _]%list_elem_of_filter)%list_elem_of_fmap.
  unfold included in Hin. simpl in Hin |- *.
  rewrite club_of_annotate.
  split; [by apply contains_spec|].
  intros Hne. rewrite annotate_lookup_ne by discriminate.
  destruct (d !! u "Club") as [c|] eqn:Hc; [by exists c|].
  exfalso. apply Hne. unfold is_match, club_of in Hin. rewrite Hc in Hin.
  simpl in Hin. rewrite (str_lower_ascii []) in Hin by reflexivity.
  simpl in Hin. rewrite orb_false_r in Hin.
  by destruct (str_lower CLUB_NAME).
Qed.

Lemma parsed_records_match_club_witness :
  let r := annotate (u "Bushy Park") (u "2024-06-01")
             (make_row [u "parkrunner"; u "Club"]
                [u "Alice"; u "Westbourne RC"; u "21:30"]) in
  (exists a b,
     str_lower (UnicodeData := ascii_data) (club_of r)
     = a ++ str_lower (UnicodeData := ascii_data) (u "Westbourne") ++ b)
  /\ (str_lower (UnicodeData := ascii_data) (u "Westbourne") <> [] ->
      is_Some (r !! u "Club")).
Proof.
  apply (parsed_records_match_club (UD := ascii_data) (u "Westbourne") a_day
           overflow_page).
  assert (parse_results (UD := ascii_data) (u "Westbourne") a_day overflow_page
          = [annotate (u "Bushy Park") (u "2024-06-01")
               (make_row [u "parkrunner"; u "Club"]
                  [u "Alice"; u "Westbourne RC"; u "21:30"])]) as ->
    by (vm_compute; reflexivity).
  by left.
Defined.

Lemma finditer_no_match {A} (m : str -> option (A * str)) (s : str) :
  (forall s', s' `suffix_of` s -> m s' = None) -> finditer m 0 s = ([], s).
Proof.
  induction s as [|c r IH]; intros H; [reflexivity|].
  simpl. rewrite (H (c :: r)) by done.
  rewrite IH; [reflexivity|]. intros s' Hs. apply H. by apply suffix_cons_r.
Qed.

Lemma sre_lower_not_letter (c v : N) :
  sre_lower c = v -> v < 97 \/ 122 < v -> c = v.
Proof.
  unfold sre_lower. intros H Hv.
  destruct ((65 <=? c) && (c <=? 90)) eqn:H1.
  - apply andb_true_iff in H1 as [H1%N.leb_le H2%N.leb_le]. lia.
  - destruct (c =? 8490); [lia|]. destruct (c =? 304); [lia|]. exact H.
Qed.

Lemma h2_at_Some (s rest : str) (a : unit) :
  h2_at s = Some (a, rest) ->
  exists c, s = 60 :: c :: 50 :: 62 :: rest /\ sre_lower c = 104.
Proof.
  unfold h2_at.
  change (lit_ci "<h2>")
    with [(fun c => sre_lower c =? 60); (fun c => sre_lower c =? 104);
          (fun c => sre_lower c =? 50); (fun c => sre_lower c =? 62)].
  destruct s as [|c1 [|c2 [|c3 [|c4 s]]]]; simpl;
    repeat (match goal with
            | |- context [sre_lower ?x =? ?v] =>
                destruct (N.eqb_spec (sre_lower x) v)
            end; simpl); try discriminate.
  intros [= <-]. exists c2. split; [|done].
  rewrite (sre_lower_not_letter c1 60), (sre_lower_not_letter c3 50),
    (sre_lower_not_letter c4 62) by (assumption || lia).
  by rewrite H0.
Qed.

(** X6.  A page without a second-level heading, in either letter case,
    gives no record at all, whatever else it holds. *)
Theorem no_heading_no_results `{UD : UnicodeData} (CLUB_NAME : str) (now : date)
    (html : str) :
  (forall l c r, html = l ++ 60 :: c :: 50 :: 62 :: r -> c <> 104 /\ c <> 72) ->
  parse_results CLUB_NAME now html = [].
Proof.
  intros Hno. unfold parse_results, re_split.
  rewrite finditer_no_match; [reflexivity|].
  intros s' [l ->]. destruct (h2_at s') as [[a rest]|] eqn:Hm; [|reflexivity].
  exfalso. apply h2_at_Some in Hm as (c & -> & Hc).
  destruct (Hno l c rest eq_refl) as [H1 H2].
  unfold sre_lower in Hc.
  destruct ((65 <=? c) && (c <=? 90)) eqn:E; [lia|].
  destruct (c =? 8490) eqn:E1; [discriminate|].
  destruct (c =? 304); [discriminate|]. contradiction.
Qed.

Lemma no_heading_no_results_witness :
  parse_results (UD := ascii_data) (u "Westbourne") a_day (u "No results this week.")
  = [].
Proof.
  apply (no_heading_no_results (UD := ascii_data)).
  intros l c r H. exfalso.
  assert (60 ∉ u "No results this week.") as Hn.
  { refine (bool_decide_unpack _ _). vm_compute. exact I. }
  apply Hn. rewrite H. apply elem_of_app. right. by left.
Defined.

Lemma match_prefix_drop (pat : pattern) (s rest : str) :
  match_prefix pat s = Some rest ->
  rest = drop (length pat) s /\ (length pat <= length s)%nat.
Proof.
  revert s. induction pat as [|p pat IH]; intros s; simpl.
  - intros [= ->]. split; [reflexivity|lia].
  - destruct s as [|c s]; [discriminate|]. destruct (p c); [|discriminate].
    intros [-> Hl]%IH. simpl. split; [reflexivity|lia].
Qed.

Lemma match_prefix_take (pat : pattern) (s rest : str) :
  match_prefix pat s = Some rest ->
  match_prefix pat (take (length pat) s) = Some [].
Proof.
  revert s. induction pat as [|p pat IH]; intros s; simpl.
  - intros _. by destruct s.
  - destruct s as [|c s]; [discriminate|]. simpl.
    destruct (p c); [apply IH|discriminate].
Qed.

(** X7.  All the records of one page carry the same Date.  When the page
    names its date, that Date is the first date the page names after the
    words of the report sentence, whatever the clock says: ten characters,
    four digits, a hyphen, two digits, a hyphen and two digits. *)
Theorem records_share_the_page_date `{UD : UnicodeData} (CLUB_NAME : str)
    (now : date) (html : str) (r : result) :
  r ∈ parse_results CLUB_NAME now html ->
  r !! u "Date" = Some (event_date_of now html)
  /\ (forall d, search_date html = Some d ->
        event_date_of now html = d
        /\ length d = 10%nat
        /\ match_prefix ymd_pattern d = Some []).
Proof.
  rewrite parse_results_filter.
  intros ([ev d0] & -> & _)%list_elem_of_fmap. simpl.
  split; [apply lookup_insert_eq|].
  intros d Hd. unfold event_date_of. rewrite Hd. split; [reflexivity|].
  apply re_search_Some in Hd as (s & rest & Hm). unfold date_at in Hm.
  destruct (match_prefix _ s) as [t|]; [|discriminate].
  destruct (match_prefix ymd_pattern t) as [rest'|] eqn:Hy; [|discriminate].
  injection Hm as <- _.
  pose proof (match_prefix_drop _ _ _ Hy) as [_ Hlen].
  pose proof (match_prefix_take _ _ _ Hy) as Ht.
  change (length ymd_pattern) with 10%nat in Hlen, Ht.
  split; [|exact Ht]. rewrite length_take. lia.
Qed.

Lemma records_share_the_page_date_witness :
  let r := annotate (u "Bushy Park") (u "2024-06-01")
             (make_row [u "parkrunner"; u "Club"]
                [u "Alice"; u "Westbourne RC"; u "21:30"]) in
  r !! u "Date" = Some (event_date_of (UD := ascii_data) a_day overflow_page).
Proof.
  apply (records_share_the_page_date (UD := ascii_data) (u "Westbourne") a_day
           overflow_page).
  assert (parse_results (UD := ascii_data) (u "Westbourne") a_day overflow_page
          = [annotate (u "Bushy Park") (u "2024-06-01")
               (make_row [u "parkrunner"; u "Club"]
                  [u "Alice"; u "Westbourne RC"; u "21:30"])]) as ->
    by (vm_compute; reflexivity).
  by left.
Defined.

Lemma re_sub_skip_prefix {A} (m : str -> option (A * str)) (repl : A -> str)
    (n sfx : str) :
  (forall l x, n = l ++ x -> x <> [] -> m (x ++ sfx) = None) ->
  re_sub m repl (n ++ sfx) = n ++ re_sub m repl sfx.
Proof.
  induction n as [|c n IH]; intros H; [reflexivity|].
  simpl. rewrite re_sub_no_match.
  - rewrite IH; [reflexivity|]. intros l x -> Hx. apply (H (c :: l)); done.
  - apply (H [] (c :: n)); done.
Qed.

Lemma parkrun_suffix_chars (sfx : str) :
  match_prefix (lit_ci " parkrun") sfx = Some [] ->
  length sfx = 8%nat /\ drop 7 sfx <> [10].
Proof.
  change (lit_ci " parkrun")
    with [(fun c => sre_lower c =? 32); (fun c => sre_lower c =? 112);
          (fun c => sre_lower c =? 97); (fun c => sre_lower c =? 114);
          (fun c => sre_lower c =? 107); (fun c => sre_lower c =? 114);
          (fun c => sre_lower c =? 117); (fun c => sre_lower c =? 110)].
  destruct sfx as [|c1 [|c2 [|c3 [|c4 [|c5 [|c6 [|c7 [|c8 s]]]]]]]]; simpl;
    repeat (match goal with
            | |- context [sre_lower ?x =? ?v] =>
                destruct (N.eqb_spec (sre_lower x) v)
            end; simpl); try discriminate.
  intros [= ->]. split; [reflexivity|]. intros [= ->]. discriminate.
Qed.

Lemma parkrun_suffix_at_rest (s rest : str) :
  match_prefix (lit_ci " parkrun") s = Some rest ->
  rest <> [] -> rest <> [10] -> parkrun_suffix_at s = None.
Proof.
  intros H H1 H2. unfold parkrun_suffix_at. rewrite H.
  destruct rest as [|y [|z r]]; [done| |].
  - destruct (N.eqb_spec y 10) as [->|Hy]; [done|].
    destruct y as [|p]; [reflexivity|].
    do 4 (destruct p as [p|p|]; try reflexivity). congruence.
  - destruct y as [|p]; [reflexivity|].
    do 4 (destruct p as [p|p|]; try reflexivity).
Qed.

(** X8.  The event name of a heading whose text, once stripped, ends with
    [ parkrun] in any letter case is that text without these eight
    characters; an earlier [ parkrun] in it stays. *)
Theorem event_name_drops_suffix (g n sfx : str) :
  strip g = n ++ sfx ->
  match_prefix (lit_ci " parkrun") sfx = Some [] ->
  event_name_of g = n.
Proof.
  intros Hg Hs. unfold event_name_of. rewrite Hg.
  destruct (parkrun_suffix_chars sfx Hs) as [Hlen Hlast].
  rewrite re_sub_skip_prefix.
  - destruct sfx as [|c sfx]; [discriminate|].
    rewrite (re_sub_match _ _ c sfx tt []).
    + simpl. apply app_nil_r.
    + unfold parkrun_suffix_at. by rewrite Hs.
    + apply suffix_nil.
  - intros l x -> Hx.
    destruct (match_prefix (lit_ci " parkrun") (x ++ sfx)) as [rest|] eqn:Hm.
    + apply (parkrun_suffix_at_rest _ rest Hm);
        apply match_prefix_drop in Hm as [-> _];
        change (length (lit_ci " parkrun")) with 8%nat.
      * intros Hd. apply (f_equal length) in Hd.
        rewrite length_drop, length_app in Hd. simpl in Hd.
        destruct x; [done|simpl in Hd; lia].
      * intros Hd. pose proof (f_equal length Hd) as Hl.
        rewrite length_drop, length_app in Hl. simpl in Hl.
        destruct x as [|x0 [|x1 x]]; [done| |simpl in Hl; lia].
        apply Hlast. exact Hd.
    + unfold parkrun_suffix_at. by rewrite Hm.
Qed.

Lemma event_name_drops_suffix_witness :
  event_name_of (u "  Bushy Park parkrun PARKRUN ") = u "Bushy Park parkrun".
Proof.
  apply (event_name_drops_suffix _ (u "Bushy Park parkrun") (u " PARKRUN")).
  - vm_compute. reflexivity.
  - vm_compute. reflexivity.
Defined.

(** ** save_results and load_existing_results *)

Lemma new_results_empty (results : list result) : new_results results ∅ = results.
Proof.
  unfold new_results. induction results as [|r rs IH]; [reflexivity|].
  rewrite filter_cons, IH. rewrite decide_True; [reflexivity|]. set_solver.
Qed.

(** X9.  Without append mode [save_results] replaces the dataset: whatever
    the file held, it then holds the header and one row for every record
    given, duplicates included, in the order given. *)
Theorem save_results_overwrite (r : result) (rs : list result)
    (file : option csv_file) :
  let fields := fieldnames ++ extra_keys (r :: rs) in
  file_after (save_results (r :: rs) false file)
  = Some (fields :: (dict_to_list fields <$> r :: rs))
  /\ printed (save_results (r :: rs) false file) = Saved (S (length rs)).
Proof.
  cbv zeta. rewrite save_results_unfold. cbv zeta.
  rewrite new_results_empty. by destruct file.
Qed.

Lemma extra_keys_nodup (results : list result) : NoDup (extra_keys results).
Proof.
  unfold extra_keys. rewrite merge_sort_Permutation. apply NoDup_elements.
Qed.

Lemma fields_nodup (results : list result) :
  NoDup (fieldnames ++ extra_keys results).
Proof.
  apply NoDup_app. split; [|split].
  - refine (bool_decide_unpack _ _). vm_compute. exact I.
  - intros k Hk. by apply extra_keys_own.
  - apply extra_keys_nodup.
Qed.

(** X10.  The header [save_results] computes has no column twice and has a
    column for every key of every record given, so that the writer is never
    handed a key it does not know; and every row written has as many cells
    as that header. *)
Theorem header_covers_every_key (results : list result) :
  let fields := fieldnames ++ extra_keys results in
  NoDup fields
  /\ (forall r k, r ∈ results -> is_Some (r !! k) -> k ∈ fields)
  /\ (forall r, length (dict_to_list fields r) = length fields).
Proof.
  cbv zeta. split; [apply fields_nodup|split].
  - intros r k Hr Hk. apply elem_of_app.
    destruct (decide (k ∈ fieldnames)) as [Hin|Hout]; [by left|right].
    apply elem_of_extra_keys. split; [|exact Hout].
    apply elem_of_all_keys. by exists r.
  - intros r. unfold dict_to_list. apply length_fmap.
Qed.

Lemma nodup_not_later (l : list str) (i : nat) (k : str) :
  NoDup l -> l !! i = Some k -> k ∉ drop (S i) l.
Proof.
  intros Hnd Hi (j & Hj)%list_elem_of_lookup. rewrite lookup_drop in Hj.
  pose proof (NoDup_lookup l i (S i + j) k Hnd Hi Hj). lia.
Qed.

Lemma written_row_read_back (fields : list str) (r : result) (k : str) :
  NoDup fields -> k ∈ fields ->
  dict_of_row fields (dict_to_list fields r) !! k = Some (Some (default [] (r !! k))).
Proof.
  intros Hnd (i & Hi)%list_elem_of_lookup.
  apply (dict_of_row_cell _ _ i); [exact Hi| |by apply nodup_not_later].
  unfold dict_to_list. by rewrite list_lookup_fmap, Hi.
Qed.

(** X11.  Round trip through a new dataset: read back under the header it
    was written with, the row of a record gives, for every column of the
    header, the value the record has for it, the empty text if it has none;
    for any other name it gives nothing. *)
Theorem written_row_round_trip (results : list result) (r : result) (k : str) :
  let fields := fieldnames ++ extra_keys results in
  let row := dict_of_row fields (dict_to_list fields r) in
  (k ∈ fields -> row !! k = Some (Some (default [] (r !! k))))
  /\ (k ∉ fields -> row !! k = None).
Proof.
  cbv zeta. split.
  - apply written_row_read_back, fields_nodup.
  - apply dict_of_row_absent.
Qed.




(** ** The orchestrator *)

Section Runs.
Context {UD : UnicodeData}.
Variable CLUB_NAME : str.
Variable E : env.

Lemma backfill_week_requests (date_str : str) (w : world) :
  date_str <> [] ->
  requests (backfill_week CLUB_NAME E date_str w) = requests w ++ [Some date_str].
Proof.
  unfold backfill_week, fetch_html.
  destruct date_str as [|c d]; [done|]. intros _.
  destruct (net E (length (requests w)) _) as [e|html]; reflexivity.
Qed.

Lemma backfill_loop_requests (latest : Z) (weeks : list nat) (w : world) :
  exists dates : list str,
    requests (backfill_loop CLUB_NAME E latest weeks w).1
    = requests w ++ (Some <$> dates)
    /\ dates `prefix_of`
         ((fun i : nat => strftime (fromordinal (latest - 7 * Z.of_nat i))) <$> weeks).
Proof.
  revert w. induction weeks as [|i weeks IH]; intros w.
  - exists []. simpl. by rewrite app_nil_r.
  - cbn [backfill_loop]. destruct (latest - 7 * Z.of_nat i <? 1)%Z.
    + exists []. simpl. rewrite app_nil_r. split; [done|]. apply prefix_nil.
    + destruct (IH (backfill_week CLUB_NAME E
                      (strftime (fromordinal (latest - 7 * Z.of_nat i))) w))
        as (dates & Hreq & Hpre).
      exists (strftime (fromordinal (latest - 7 * Z.of_nat i)) :: dates).
      rewrite Hreq, backfill_week_requests, <- app_assoc
        by apply strftime_nonempty.
      split; [done|].
      rewrite fmap_cons. by apply prefix_cons.
Qed.

(** X16.  The requests of a backfill run, whatever the server answers and
    however the run ends.  The first request is for the current report.
    Every later request names a date, and the dates asked are, in order,
    the beginning of the list of the days 7, 14, ..., [7 * (num_weeks - 1)]
    days before the date [latest] the first page names; so the run sends at
    least one and at most [max 1 num_weeks] requests.  When the first
    request fails, or the page names no date, or names one that is not in
    the calendar, that request is the only one. *)
Theorem backfill_requests (num_weeks : nat) (w : world) :
  let run := backfill_weeks CLUB_NAME E num_weeks w in
  (exists dates : list str,
     requests run.1 = requests w ++ None :: (Some <$> dates)
     /\ (length dates <= num_weeks - 1)%nat
     /\ (forall html g latest,
           net E (length (requests w)) None = inr html ->
           search_date html = Some g -> strptime g = Some latest ->
           dates `prefix_of`
             ((fun i : nat => strftime (fromordinal (toordinal latest - 7 * Z.of_nat i)))
                <$> seq 1 (num_weeks - 1))))
  /\ (length (requests w) < length (requests run.1)
      <= length (requests w) + max 1 num_weeks)%nat
  /\ (forall e, net E (length (requests w)) None = inl e ->
        requests run.1 = requests w ++ [None] /\ run.2 = inl e)
  /\ (forall html, net E (length (requests w)) None = inr html ->
        search_date html = None ->
        requests run.1 = requests w ++ [None] /\ run.2 = inr tt)
  /\ (forall html g, net E (length (requests w)) None = inr html ->
        search_date html = Some g -> strptime g = None ->
        requests run.1 = requests w ++ [None] /\ run.2 = inl ValueError).
Proof.
  cbv zeta.
  assert (exists dates : list str,
     requests (backfill_weeks CLUB_NAME E num_weeks w).1
     = requests w ++ None :: (Some <$> dates)
     /\ (length dates <= num_weeks - 1)%nat
     /\ (forall html g latest,
           net E (length (requests w)) None = inr html ->
           search_date html = Some g -> strptime g = Some latest ->
           dates `prefix_of`
             ((fun i : nat => strftime (fromordinal (toordinal latest - 7 * Z.of_nat i)))
                <$> seq 1 (num_weeks - 1)))) as Hd.
  { unfold backfill_weeks, fetch_html.
    destruct (net E (length (requests w)) None) as [e|html].
    { exists []. split; [done|]. split; [simpl; lia|]. intros; apply prefix_nil. }
    destruct (search_date html) as [g|] eqn:Hg.
    2:{ exists []. split; [done|]. split; [simpl; lia|]. intros; apply prefix_nil. }
    destruct (strptime g) as [latest_date|] eqn:Hl.
    2:{ exists []. split; [done|]. split; [simpl; lia|]. intros; apply prefix_nil. }
    destruct (backfill_loop_requests (toordinal latest_date) (seq 1 (num_weeks - 1))
      (parse_and_save CLUB_NAME E html
         {| dataset := dataset w; requests := requests w ++ [None] |}))
      as (dates & Hreq & Hpre).
    exists dates. split.
    - rewrite Hreq. unfold parse_and_save. cbn [requests].
      by rewrite <- app_assoc.
    - split.
      + apply prefix_length in Hpre. by rewrite length_fmap, length_seq in Hpre.
      + intros html' g' latest' H1 H2 H3. simplify_eq. exact Hpre. }
  split; [exact Hd|]. split.
  { destruct Hd as (dates & -> & Hl & _).
    rewrite length_app. cbn [length]. rewrite length_fmap. lia. }
  unfold backfill_weeks, fetch_html.
  split; [by intros e ->|]. split.
  - by intros html -> ->.
  - by intros html g -> -> ->.
Qed.

Lemma summary_line_Some (r : result) (k : str) :
  summary_line r = Some k -> k ∈ summary_keys /\ r !! k = None.
Proof.
  unfold summary_line.
  destruct (list_find _ summary_keys) as [[i k']|] eqn:Hf; [|discriminate].
  simpl. intros [= <-]. apply list_find_Some in Hf as (Hi & Hk & _).
  split; [|exact Hk]. apply list_elem_of_lookup. by exists i.
Qed.

Lemma summary_line_None (r : result) :
  summary_line r = None -> forall k, k ∈ summary_keys -> is_Some (r !! k).
Proof.
  unfold summary_line.
  destruct (list_find _ summary_keys) as [[i k']|] eqn:Hf; [discriminate|].
  intros _ k Hk. apply list_find_None in Hf.
  rewrite Forall_forall in Hf. specialize (Hf k Hk).
  by destruct (r !! k).
Qed.

Lemma summary_Some (results : list result) (k : str) :
  summary results = Some k ->
  k ∈ summary_keys /\ exists r, r ∈ results /\ r !! k = None.
Proof.
  induction results as [|r rs IH]; [discriminate|]. simpl.
  destruct (summary_line r) as [k'|] eqn:Hr.
  - intros [= ->]. apply summary_line_Some in Hr as [H1 H2].
    split; [exact H1|]. exists r. split; [by left|exact H2].
  - intros (H1 & r' & H2 & H3)%IH. split; [exact H1|]. exists r'.
    split; [by right|exact H3].
Qed.

Lemma summary_None (results : list result) :
  (forall r k, r ∈ results -> k ∈ summary_keys -> is_Some (r !! k)) ->
  summary results = None.
Proof.
  induction results as [|r rs IH]; intros H; [reflexivity|]. simpl.
  destruct (summary_line r) as [k|] eqn:Hr.
  - apply summary_line_Some in Hr as [H1 H2].
    destruct (H r k) as [v Hv]; [by left|exact H1|]. congruence.
  - apply IH. intros r' k Hr' Hk. apply H; [by right|exact Hk].
Qed.

Lemma summary_None_inv (results : list result) (r : result) (k : str) :
  summary results = None -> r ∈ results -> k ∈ summary_keys -> is_Some (r !! k).
Proof.
  induction results as [|r' rs IH]; intros Hs Hr Hk; [inversion Hr|].
  simpl in Hs. destruct (summary_line r') as [k'|] eqn:Hl; [discriminate|].
  apply elem_of_cons in Hr as [->|Hr].
  - by apply summary_line_None.
  - by apply IH.
Qed.

(** X17.  [main], when the page arrives, does to the dataset and the
    network what [fetch_single_week] does, whether it then raises or not:
    the records are saved before the summary is printed.  It ends normally
    if and only if every parsed record has a [parkrunner] and a [Time]; a
    record that lacks one of them makes it raise [KeyError], and the
    [KeyError] it raises is for one of these two keys and a record that
    lacks it. *)
Theorem main_saves_before_summary (w : world) (html : str) :
  net E (length (requests w)) None = inr html ->
  let results := parse_results CLUB_NAME (clock E (S (length (requests w)))) html in
  (main CLUB_NAME E w).1 = (fetch_single_week CLUB_NAME E None w).1
  /\ ((main CLUB_NAME E w).2 = inr tt
      <-> forall r, r ∈ results ->
            is_Some (r !! u "parkrunner") /\ is_Some (r !! u "Time"))
  /\ (forall r, r ∈ results ->
        r !! u "parkrunner" = None \/ r !! u "Time" = None ->
        exists k, (k = u "parkrunner" \/ k = u "Time")
                  /\ (main CLUB_NAME E w).2 = inl (KeyError k))
  /\ (forall e, (main CLUB_NAME E w).2 = inl e ->
        exists k r, e = KeyError k /\ (k = u "parkrunner" \/ k = u "Time")
                    /\ r ∈ results /\ r !! k = None).
Proof.
  intros Hnet results.
  rewrite (fetch_single_week_ok CLUB_NAME E w html Hnet). fold results.
  unfold main, fetch_html. rewrite Hnet. cbn [dataset requests].
  rewrite length_app, Nat.add_1_r. fold results.
  assert (forall r, r ∈ results ->
            is_Some (r !! u "Date") /\ is_Some (r !! u "Event")) as Hde.
  { intros r. unfold results. rewrite parse_results_filter.
    intros ([ev d] & -> & _)%list_elem_of_fmap. simpl. unfold annotate. split.
    - rewrite lookup_insert_eq. by eexists.
    - rewrite lookup_insert_ne by discriminate. rewrite lookup_insert_eq.
      by eexists. }
  destruct results as [|r0 rs] eqn:Hres.
  { simpl. split; [reflexivity|]. split.
    - split; [intros _ r Hr; inversion Hr|done].
    - split; [intros r Hr; inversion Hr|intros e [=]]. }
  rewrite <- Hres in *. clear Hres.
  destruct (summary results) as [k|] eqn:Hsum.
  - apply summary_Some in Hsum as (Hk & r & Hr & Hnone). simpl.
    assert (k = u "parkrunner" \/ k = u "Time") as Hk'.
    { destruct (Hde r Hr) as [[v1 H1] [v2 H2]].
      unfold summary_keys in Hk.
      repeat (apply elem_of_cons in Hk as [->|Hk]); try congruence; auto.
      inversion Hk. }
    split; [reflexivity|]. split; [|split].
    + split; [discriminate|].
      intros Hall. exfalso. destruct (Hall r Hr) as [[v1 H1] [v2 H2]].
      destruct Hk' as [->| ->]; congruence.
    + intros _ _ _. by exists k.
    + intros e [= <-]. by exists k, r.
  - simpl. split; [reflexivity|]. split; [|split].
    + split; [|done]. intros _ r Hr. split.
      * apply (summary_None_inv results r _ Hsum Hr).
        by refine (bool_decide_unpack _ _).
      * apply (summary_None_inv results r _ Hsum Hr).
        by refine (bool_decide_unpack _ _).
    + intros r Hr [Hn|Hn]; exfalso.
      * assert (is_Some (r !! u "parkrunner")) as [v Hv]; [|congruence].
        apply (summary_None_inv results r _ Hsum Hr).
        by refine (bool_decide_unpack _ _).
      * assert (is_Some (r !! u "Time")) as [v Hv]; [|congruence].
        apply (summary_None_inv results r _ Hsum Hr).
        by refine (bool_decide_unpack _ _).
    + intros e [=].
Qed.

End Runs.

Lemma main_saves_before_summary_witness :
  let w := fresh in
  let html := week_page "2024-06-01" in
  let E := constant_env html in
  let results := parse_results (UD := ascii_data) (u "Westbourne")
                   (clock E (S (length (requests w)))) html in
  (main (UD := ascii_data) (u "Westbourne") E w).1
  = (fetch_single_week (UD := ascii_data) (u "Westbourne") E None w).1
  /\ ((main (UD := ascii_data) (u "Westbourne") E w).2 = inr tt
      <-> forall r, r ∈ results ->
            is_Some (r !! u "parkrunner") /\ is_Some (r !! u "Time"))
  /\ (forall r, r ∈ results ->
        r !! u "parkrunner" = None \/ r !! u "Time" = None ->
        exists k, (k = u "parkrunner" \/ k = u "Time")
                  /\ (main (UD := ascii_data) (u "Westbourne") E w).2
                     = inl (KeyError k))
  /\ (forall e,
        (main (UD := ascii_data) (u "Westbourne") E w).2 = inl e ->
        exists k r, e = KeyError k /\ (k = u "parkrunner" \/ k = u "Time")
                    /\ r ∈ results /\ r !! k = None).
Proof.
  apply (main_saves_before_summary (UD := ascii_data) (u "Westbourne")
           (constant_env (week_page "2024-06-01")) fresh (week_page "2024-06-01")).
  reflexivity.
Defined.

(** ** Facts about the character references *)

Lemma charref_at_not_amp (c : N) (r : str) : c <> 38 -> charref_at (c :: r) = None.
Proof.
  intros Hc. unfold charref_at. destruct c as [|p]; [reflexivity|].
  do 6 (destruct p as [p|p|]; try reflexivity). congruence.
Qed.

Lemma charref_at_named (x : N) (r : str) :
  x <> 35 ->
  charref_at (38 :: x :: r)
  = match span_upto 32 is_name_char (x :: r) with
    | (c :: name, r') =>
        let '(semi, rest) := opt_semicolon r' in
        Some (Named (c :: name ++ semi), rest)
    | ([], _) => None
    end.
Proof.
  intros Hx. unfold charref_at. destruct x as [|p]; [reflexivity|].
  do 6 (destruct p as [p|p|]; try reflexivity). congruence.
Qed.

Lemma re_sub_charref_no_amp (repl : charref -> str) (s : str) :
  38 ∉ s -> re_sub charref_at repl s = s.
Proof.
  induction s as [|c r IH]; [reflexivity|]. intros Hs.
  rewrite re_sub_no_match.
  - rewrite IH; [reflexivity|]. intros H. apply Hs. by right.
  - apply charref_at_not_amp. intros ->. apply Hs. by left.
Qed.

Lemma unescape_re_sub `{UD : UnicodeData} (s : str) :
  unescape s = re_sub charref_at replace_charref s.
Proof.
  unfold unescape. destruct (existsb (N.eqb 38) s) eqn:E; [reflexivity|].
  simpl. symmetry. apply re_sub_charref_no_amp.
  intros Hin%list_elem_of_In.
  assert (existsb (N.eqb 38) s = true) as E'; [|congruence].
  apply existsb_exists. exists 38. split; [exact Hin|reflexivity].
Qed.

Lemma unescape_app `{UD : UnicodeData} (a b : str) :
  38 ∉ a -> unescape (a ++ b) = a ++ unescape b.
Proof.
  rewrite !unescape_re_sub. intros Ha. apply re_sub_skip_prefix.
  intros l [|c x] -> Hx; [done|]. simpl. apply charref_at_not_amp.
  intros ->. apply Ha. apply elem_of_app. right. by left.
Qed.

Lemma unescape_charref `{UD : UnicodeData} (r rest : str) (ref : charref) :
  charref_at (38 :: r) = Some (ref, rest) -> rest `suffix_of` r ->
  unescape (38 :: r) = replace_charref ref ++ unescape rest.
Proof.
  intros Hm Hs. rewrite !unescape_re_sub. by apply re_sub_match.
Qed.

Lemma is_dec_uint_str (d : Decimal.uint) : forallb is_dec (uint_str d) = true.
Proof. induction d; simpl; try reflexivity; exact IHd. Qed.

Lemma int_of_uint_str (d : Decimal.uint) (acc : N) :
  fold_left (fun acc c => 10 * acc + default 0 (hex_value c)) (uint_str d) acc
  = N.of_nat (Nat.of_uint_acc d (N.to_nat acc)).
Proof.
  revert acc. induction d; intros acc; simpl;
    [by rewrite N2Nat.id|rewrite IHd; do 2 f_equal; rewrite Nat.tail_mul_spec;
                         change (default 0 (hex_value _)) with 0
                         || (cbn [default hex_value is_dec]); lia ..].
Qed.

Lemma int_of_decimal (n : nat) : int_of 10 hex_value (decimal n) = N.of_nat n.
Proof.
  unfold int_of, decimal. rewrite int_of_uint_str.
  replace (Nat.of_uint_acc (Nat.to_uint n) (N.to_nat 0))
    with (Nat.of_uint (Nat.to_uint n)) by reflexivity.
  by rewrite Unsigned.of_to.
Qed.

Lemma decimal_nonempty (n : nat) : decimal n <> [].
Proof.
  unfold decimal. intros H.
  assert (Nat.to_uint n = Nil) as Hn by (by destruct (Nat.to_uint n)).
  pose proof (Unsigned.of_to n) as Hof. rewrite Hn in Hof.
  subst n. discriminate.
Qed.

Lemma replace_numeric_valid (n : N) :
  32 <= n <= 126 \/ 160 <= n < 55296 -> replace_numeric n = [n].
Proof.
  intros Hn. unfold replace_numeric, invalid_charrefs. cbn [assoc].
  repeat (destruct (N.eqb_spec n _) as [?|_]; [lia|]).
  assert (n mod 65536 = n) as Hmod by (apply N.mod_small; lia).
  unfold invalid_codepoint. rewrite Hmod.
  repeat match goal with
         | |- context [?a <=? ?b] => destruct (N.leb_spec a b); try lia
         | |- context [?a <? ?b] => destruct (N.ltb_spec a b); try lia
         | |- context [?a =? ?b] => destruct (N.eqb_spec a b); try lia
         end; reflexivity.
Qed.

Lemma span_upto_stop (n : nat) (p : N -> bool) (a : str) (c : N) (r : str) :
  forallb p a = true -> (length a <= n)%nat -> p c = false ->
  span_upto n p (a ++ c :: r) = (a, c :: r).
Proof.
  revert n. induction a as [|x a IH]; intros n Ha Hn Hc.
  - destruct n; simpl; [reflexivity|]. by rewrite Hc.
  - destruct n as [|n]; [simpl in Hn; lia|].
    simpl in Ha |- *. apply andb_true_iff in Ha as [Hx Ha].
    rewrite Hx, IH; [reflexivity|exact Ha|simpl in Hn; lia|exact Hc].
Qed.

(** A decimal reference to a code point that is a character of its own. *)
Lemma unescape_decimal `{UD : UnicodeData} (n : N) (b : str) :
  32 <= n <= 126 \/ 160 <= n < 55296 ->
  unescape (u "&#" ++ decimal (N.to_nat n) ++ u ";" ++ b) = n :: unescape b.
Proof.
  intros Hn.
  change (u "&#" ++ decimal (N.to_nat n) ++ u ";" ++ b)
    with (38 :: 35 :: decimal (N.to_nat n) ++ 59 :: b).
  rewrite (unescape_charref _ b (Numeric n)).
  - simpl. by rewrite replace_numeric_valid.
  - unfold charref_at.
    rewrite span_stop by (apply is_dec_uint_str || reflexivity).
    pose proof (decimal_nonempty (N.to_nat n)) as Hne.
    pose proof (int_of_decimal (N.to_nat n)) as Hint.
    destruct (decimal (N.to_nat n)) as [|d ds]; [done|].
    rewrite Hint, N2Nat.id. reflexivity.
  - exists (35 :: decimal (N.to_nat n) ++ [59]). simpl.
    by rewrite <- app_assoc.
Qed.

(** A named reference with its semicolon. *)
Lemma unescape_named `{UD : UnicodeData} (name v b : str) :
  html5 (name ++ u ";") = Some v ->
  name <> [] -> (length name <= 32)%nat -> forallb is_name_char name = true ->
  unescape (u "&" ++ name ++ u ";" ++ b) = v ++ unescape b.
Proof.
  intros Hv Hne Hlen Hname.
  change (u "&" ++ name ++ u ";" ++ b) with (38 :: name ++ 59 :: b).
  rewrite (unescape_charref _ b (Named (name ++ [59]))).
  - simpl. change (u ";") with [59] in Hv. by rewrite Hv.
  - destruct name as [|x name]; [done|].
    assert (x <> 35) as Hx.
    { intros ->. simpl in Hname. discriminate. }
    cbn [app]. rewrite charref_at_named by exact Hx.
    change (x :: name ++ 59 :: b) with ((x :: name) ++ 59 :: b).
    rewrite span_upto_stop by (done || reflexivity).
    reflexivity.
  - exists (name ++ [59]). by rewrite <- app_assoc.
Qed.

(** ** Facts about the limit on decimal numerals *)

Lemma re_findall_no_match {A} (m : str -> option (A * str)) (c : N) (r : str) :
  m (c :: r) = None -> re_findall m (c :: r) = re_findall m r.
Proof.
  intros Hm. unfold re_findall. simpl. rewrite Hm.
  destruct (finditer m 0 r) as [[|[pre a] ms] tl]; reflexivity.
Qed.

Lemma re_findall_match {A} (m : str -> option (A * str)) (c : N) (r : str)
    (a : A) (rest : str) :
  m (c :: r) = Some (a, rest) -> rest `suffix_of` r ->
  re_findall m (c :: r) = a :: re_findall m rest.
Proof.
  intros Hm Hs. unfold re_findall. by rewrite (finditer_match _ _ _ _ _ Hm Hs).
Qed.

Lemma decimal_digits_at_not_amp (c : N) (r : str) :
  c <> 38 -> decimal_digits_at (c :: r) = None.
Proof. intros Hc. unfold decimal_digits_at. by rewrite charref_at_not_amp. Qed.

Lemma unescape_raises_no_amp (s : str) : 38 ∉ s -> unescape_raises s = false.
Proof.
  intros Hs. unfold unescape_raises.
  assert (re_findall decimal_digits_at s = []) as ->; [|reflexivity].
  induction s as [|c r IH]; [reflexivity|].
  rewrite re_findall_no_match.
  - apply IH. intros H. apply Hs. by right.
  - apply decimal_digits_at_not_amp. intros ->. apply Hs. by left.
Qed.

Lemma unescape_raises_app (a b : str) :
  38 ∉ a -> unescape_raises (a ++ b) = unescape_raises b.
Proof.
  intros Ha. unfold unescape_raises. f_equal.
  induction a as [|c a IH]; [reflexivity|]. cbn [app].
  rewrite re_findall_no_match.
  - apply IH. intros H. apply Ha. by right.
  - apply decimal_digits_at_not_amp. intros ->. apply Ha. by left.
Qed.

Lemma span_prefix (p : N -> bool) (a b : str) :
  forallb p a = true -> exists a', fst (span p (a ++ b)) = a ++ a'.
Proof.
  induction a as [|x a IH]; intros Ha.
  - by exists (fst (span p b)).
  - simpl in Ha |- *. apply andb_true_iff in Ha as [Hx Ha]. rewrite Hx.
    destruct (IH Ha) as [a' Ha']. exists a'.
    destruct (span p (a ++ b)). simpl in *. by rewrite Ha'.
Qed.

Lemma opt_semicolon_suffix (s : str) : snd (opt_semicolon s) `suffix_of` s.
Proof.
  unfold opt_semicolon. destruct s as [|c r]; [done|].
  destruct (N.eqb_spec c 59) as [->|Hc]; [by apply suffix_cons_r|].
  destruct c as [|p]; [done|].
  do 6 (destruct p as [p|p|]; try done).
Qed.

(** A decimal reference of more digits than the limit makes [unescape]
    raise, whatever follows it. *)
Lemma unescape_raises_long (ds b : str) :
  forallb is_dec ds = true -> (int_max_str_digits < length ds)%nat ->
  unescape_raises (u "&#" ++ ds ++ b) = true.
Proof.
  intros Hds Hlen. change (u "&#" ++ ds ++ b) with (38 :: 35 :: ds ++ b).
  destruct (span_prefix is_dec ds b Hds) as [a' Ha'].
  pose proof (span_snd_suffix is_dec (ds ++ b)) as Hsuf.
  unfold unescape_raises.
  assert (exists rest, decimal_digits_at (38 :: 35 :: ds ++ b) = Some (ds ++ a', rest)
                       /\ rest `suffix_of` 35 :: ds ++ b) as (rest & Hm & Hrest).
  { unfold decimal_digits_at, charref_at. rewrite Ha'.
    destruct (span is_dec (ds ++ b)) as [digits r'] eqn:Hspan.
    simpl in Ha', Hsuf. subst digits.
    destruct ds as [|d ds]; [unfold int_max_str_digits in Hlen; simpl in Hlen; lia|].
    cbn [app]. eexists. split; [reflexivity|].
    apply suffix_cons_r. etrans; [apply opt_semicolon_suffix|exact Hsuf]. }
  rewrite (re_findall_match _ _ _ _ _ Hm Hrest). cbn [existsb].
  apply orb_true_iff. left. apply Nat.ltb_lt. rewrite length_app. lia.
Qed.

Lemma strip_tags_app (a b : str) : 60 ∉ a -> strip_tags (a ++ b) = a ++ strip_tags b.
Proof.
  intros Ha. unfold strip_tags. apply re_sub_skip_prefix.
  intros l [|c x] -> Hx; [done|]. cbn [app]. rewrite tag_at_cons.
  destruct (N.eqb_spec c 60) as [->|]; [|reflexivity].
  exfalso. apply Ha. apply elem_of_app. right. by left.
Qed.

Lemma is_dec_not (ds : str) (c : N) :
  forallb is_dec ds = true -> is_dec c = false -> c ∉ ds.
Proof.
  intros Hds Hc Hin. rewrite forallb_forall in Hds.
  apply list_elem_of_In, Hds in Hin. congruence.
Qed.

Lemma unescape_nbsp `{UD : UnicodeData} (a b : str) :
  38 ∉ a -> unescape (a ++ u "&nbsp;" ++ b) = a ++ 160 :: unescape b.
Proof.
  intros Ha. rewrite unescape_app by exact Ha. f_equal.
  apply (unescape_named (u "nbsp") [160] b); [apply html5_nbsp|done|simpl; lia|reflexivity].
Qed.

(** C8.  Cell cleaning.  The text [clean_text] returns is the given text
    with the tags [<...>] removed, then the character references decoded,
    then every run of white space collapsed to one space and the ends
    trimmed; after the first step no tag is left.  Decoding leaves the text
    before the first [&] as it is, replaces a decimal reference [&#n;] to a
    printable code point [n] by that character, and a named reference
    [&name;] by the text the table [html5] gives for it.  So
    ["<b>12:34</b>&nbsp;"] cleans to ["12:34"], ["<td>A&nbsp;B</td>"] to
    ["A B"] and ["Smith &amp; Jones &#65;"] to ["Smith & Jones A"].  But the
    function does not return for every text: a decimal reference of more
    than 4300 digits makes it raise [ValueError], wherever it stands in a
    text; with 4300 digits it returns. *)
Theorem clean_text_spec `{UD : UnicodeData} :
  (forall text, clean_text text = strip (collapse_ws (unescape (strip_tags text))))
  /\ (forall text l t r, strip_tags text = l ++ t ++ r -> ~ is_tag t)
  /\ (forall a b : str, 38 ∉ a -> unescape (a ++ b) = a ++ unescape b)
  /\ unescape [] = []
  /\ (forall (n : N) (b : str),
        32 <= n <= 126 \/ 160 <= n < 55296 ->
        unescape (u "&#" ++ decimal (N.to_nat n) ++ u ";" ++ b) = n :: unescape b)
  /\ (forall name v b : str,
        html5 (name ++ u ";") = Some v ->
        name <> [] -> (length name <= 32)%nat -> forallb is_name_char name = true ->
        unescape (u "&" ++ name ++ u ";" ++ b) = v ++ unescape b)
  /\ clean_text (u "<b>12:34</b>&nbsp;") = u "12:34"
  /\ clean_text (u "<td>A&nbsp;B</td>") = u "A B"
  /\ clean_text (u "Smith &#38;  Jones &#65;&#x42;") = u "Smith & Jones AB"
  /\ (html5 (u "amp;") = Some [38] ->
      clean_text (u "Smith &amp; Jones &#65;") = u "Smith & Jones A")
  /\ (forall text, clean_text_outcome text = inl ValueError
                   \/ clean_text_outcome text = inr (clean_text text))
  /\ (forall text, 38 ∉ text -> clean_text_outcome text = inr (clean_text text))
  /\ (forall a ds b : str,
        60 ∉ a -> 38 ∉ a ->
        forallb is_dec ds = true -> (int_max_str_digits < length ds)%nat ->
        clean_text_outcome (a ++ u "&#" ++ ds ++ b) = inl ValueError)
  /\ clean_text_outcome (u "&#" ++ replicate 4301 49) = inl ValueError
  /\ clean_text_outcome (u "&#" ++ replicate 4300 49) = inr [65533].
Proof.
  split.
  { intros text. unfold clean_text. change (u " ") with [32].
    rewrite join_split_collapse. apply strip_idemp. }
  split.
  { intros text l t r. apply tag_free_no_tag.
    by apply (strip_tags_tag_free (length text)). }
  split; [intros a b; apply unescape_app|].
  split; [reflexivity|].
  split; [intros n b; apply unescape_decimal|].
  split; [intros name v b; apply unescape_named|].
  split.
  { unfold clean_text.
    assert (strip_tags (u "<b>12:34</b>&nbsp;") = u "12:34" ++ u "&nbsp;" ++ []) as ->
      by (vm_compute; reflexivity).
    rewrite unescape_nbsp by (by refine (bool_decide_unpack _ _)).
    vm_compute. reflexivity. }
  split.
  { unfold clean_text.
    assert (strip_tags (u "<td>A&nbsp;B</td>") = u "A" ++ u "&nbsp;" ++ u "B") as ->
      by (vm_compute; reflexivity).
    rewrite unescape_nbsp by (by refine (bool_decide_unpack _ _)).
    vm_compute. reflexivity. }
  split; [vm_compute; reflexivity|].
  split.
  { intros Hamp. unfold clean_text.
    assert (strip_tags (u "Smith &amp; Jones &#65;")
            = u "Smith " ++ u "&" ++ u "amp" ++ u ";" ++ u " Jones &#65;") as ->
      by (vm_compute; reflexivity).
    rewrite unescape_app by (by refine (bool_decide_unpack _ _)).
    rewrite (unescape_named (u "amp") [38]);
      [|exact Hamp|done|simpl; lia|reflexivity].
    vm_compute. reflexivity. }
  split.
  { intros text. unfold clean_text_outcome.
    destruct (unescape_raises (strip_tags text)); [by left|by right]. }
  split.
  { intros text Ht. unfold clean_text_outcome.
    rewrite unescape_raises_no_amp; [reflexivity|].
    intros H. apply Ht. by apply (strip_tags_elem (length text)). }
  split.
  { intros a ds b Ha1 Ha2 Hds Hlen. unfold clean_text_outcome.
    rewrite strip_tags_app by exact Ha1.
    change (u "&#" ++ ds ++ b) with ((38 :: 35 :: ds) ++ b).
    rewrite strip_tags_app.
    - rewrite unescape_raises_app by exact Ha2.
      change ((38 :: 35 :: ds) ++ strip_tags b) with (u "&#" ++ ds ++ strip_tags b).
      by rewrite unescape_raises_long.
    - intros [H|[H|H]%elem_of_cons]%elem_of_cons; [done|done|].
      by apply (is_dec_not ds 60 Hds). }
  split; vm_compute; reflexivity.
Qed.
